(** * tree-sitter [lib/src/parser.h]: lexer macros and the compact string

    A shallow embedding of the executable parts of [parser.h]:
    - the external scanner helper [TSString] (a UTF-8 string with twelve
      bytes of inline storage and a heap block beyond that), with
      [ts_string_new], [ts_string_from], [ts_string_delete],
      [ts_string_data], [ts_string_eq], [ts_string_push], [ts_string_char];
    - the lexer macros [START_LEXER], [ADVANCE], [SKIP], [ACCEPT_TOKEN],
      [END_STATE].

    C objects are modelled as follows.  A [uint32_t] is a [Z] reduced
    modulo [2^32] after every arithmetic step; a stored [char] is its bit
    pattern, a [Z] in [0, 255]; reading a [char] into an [int] depends on
    whether plain [char] is signed, which the C standard leaves to the ABI,
    so the reader takes the ABI as an argument.  The heap is a finite map
    from block names to arrays of cells; every call of [malloc], [realloc]
    and [free] is logged.  An access outside a block, to a released block,
    to an indeterminate cell or to the inactive member of the union has no
    defined result and is [None]. *)

From Stdlib Require Import ZArith Lia List.
From stdpp Require Import base option list gmap.

Local Open Scope Z_scope.

(** ** Machine integers *)

Definition u32 (x : Z) : Z := x mod 2 ^ 32.
Definition u16 (x : Z) : Z := x mod 2 ^ 16.

(** [(char)x]: the eight low bits are what reaches memory. *)
Definition to_char (x : Z) : Z := x mod 2 ^ 8.

(** Signedness of plain [char].  It is signed under the x86-64 System V,
    Windows and Darwin ABIs and unsigned under the AArch64 and ARM Linux
    ABIs. *)
Inductive char_abi := SignedChar | UnsignedChar.

(** The value of a [char] with bit pattern [b], promoted to [int]. *)
Definition char_value (abi : char_abi) (b : Z) : Z :=
  match abi with
  | SignedChar => if 128 <=? b then b - 256 else b
  | UnsignedChar => b
  end.

(** ** Memory *)

Inductive memval := Undef | Byte (b : Z).

Inductive event :=
  | Malloc (p : positive) (n : Z)
  | Realloc (p q : positive) (n : Z)
  | Free (p : positive).

Record mem := Mem {
  blocks : gmap positive (list memval);
  events : list event
}.

Definition empty_mem : mem := Mem ∅ [].

(** [malloc(n)]: a block that is not live, of [n] indeterminate cells.
    Allocation always succeeds here, so the [assert(data != NULL)] of
    [ts_string_push] cannot fail and is left out. *)
Definition malloc (n : Z) (m : mem) : positive * mem :=
  let p := fresh (dom (blocks m)) in
  (p, Mem (<[p := replicate (Z.to_nat n) Undef]> (blocks m))
          (events m ++ [Malloc p n])).

(** [realloc(p, n)]: the block moves; its cells are kept up to the smaller
    of the two sizes and the old name is released. *)
Definition realloc (p : positive) (n : Z) (m : mem) : option (positive * mem) :=
  old ← blocks m !! p;
  let q := fresh (dom (blocks m)) in
  Some (q, Mem (<[q := resize (Z.to_nat n) Undef old]> (delete p (blocks m)))
               (events m ++ [Realloc p q n])).

Definition free (p : positive) (m : mem) : option mem :=
  _ ← blocks m !! p;
  Some (Mem (delete p (blocks m)) (events m ++ [Free p])).

(** [memcpy(dst, src, n)] into the start of heap block [dst]; [src] is the
    array the source pointer designates. *)
Definition memcpy (dst : positive) (src : list memval) (n : Z) (m : mem)
  : option mem :=
  blk ← blocks m !! dst;
  if decide (Z.to_nat n ≤ length src ∧ Z.to_nat n ≤ length blk)%nat then
    Some (Mem (<[dst := take (Z.to_nat n) src ++ drop (Z.to_nat n) blk]> (blocks m))
              (events m))
  else None.

Definition read_cell (v : memval) : option Z :=
  match v with Byte b => Some b | Undef => None end.

(** The first [n] cells of an array, all of which must hold a byte. *)
Definition read_bytes (cs : list memval) (n : Z) : option (list Z) :=
  if decide (Z.to_nat n ≤ length cs)%nat
  then mapM read_cell (take (Z.to_nat n) cs)
  else None.

(** Lexicographic comparison of two byte strings, as [memcmp] orders them. *)
Fixpoint bytes_cmp (xs ys : list Z) : Z :=
  match xs, ys with
  | x :: xs', y :: ys' =>
      if x <? y then -1 else if y <? x then 1 else bytes_cmp xs' ys'
  | _, _ => 0
  end.

Definition memcmp (a b : list memval) (n : Z) : option Z :=
  xs ← read_bytes a n;
  ys ← read_bytes b n;
  Some (bytes_cmp xs ys).

(** ** The string *)

Definition SMALL_LEN : Z := 12.

(** The union [content]: either the inline array [small] or the pair
    [large.data], [large.capacity]. *)
Inductive content_t :=
  | small (cells : list memval)
  | large (data : positive) (capacity : Z).

(** [s_length] is the field [length]. *)
Record TSString := MkString {
  content : content_t;
  s_length : Z
}.

Definition content_small (self : TSString) : option (list memval) :=
  match content self with small cs => Some cs | large _ _ => None end.

Definition content_large_data (self : TSString) : option positive :=
  match content self with large p _ => Some p | small _ => None end.

Definition content_large_capacity (self : TSString) : option Z :=
  match content self with large _ cap => Some cap | small _ => None end.

(** A [char *] of these functions points either at the inline array of the
    string in hand or at the start of a heap block. *)
Inductive char_ptr := SmallArray | HeapBlock (p : positive).

(** [memset(&self, 0, sizeof(self))]: every byte of the object is zero.
    Its length is zero, so it is read through [small]. *)
Definition zeroed : TSString :=
  MkString (small (replicate (Z.to_nat SMALL_LEN) (Byte 0))) 0.

Definition ts_string_new : TSString := zeroed.

(** [content] is the caller's array; the part of [small] that [memcpy]
    does not reach stays indeterminate. *)
Definition ts_string_from (content : list Z) (length : Z) (m : mem)
  : option (TSString * mem) :=
  if SMALL_LEN <? length then
    let '(data, m) := malloc length m in
    m ← memcpy data (Byte <$> content) length m;
    Some (MkString (large data length) length, m)
  else
    if decide (0 ≤ length ∧ (Z.to_nat length ≤ List.length content)%nat) then
      Some (MkString
              (small (take (Z.to_nat length) (Byte <$> content)
                      ++ replicate (Z.to_nat (SMALL_LEN - length)) Undef))
              length, m)
    else None.

Definition ts_string_delete (self : TSString) (m : mem)
  : option (TSString * mem) :=
  m ← (if SMALL_LEN <? s_length self
       then p ← content_large_data self; free p m
       else Some m);
  Some (zeroed, m).

Definition ts_string_data (self : TSString) : option char_ptr :=
  if SMALL_LEN <? s_length self
  then HeapBlock <$> content_large_data self
  else Some SmallArray.

Definition ts_string_eq (self other : TSString) (m : mem) : option bool :=
  if negb (s_length self =? s_length other) then Some false
  else if SMALL_LEN <? s_length self then
    p ← content_large_data self;
    q ← content_large_data other;
    a ← blocks m !! p;
    b ← blocks m !! q;
    r ← memcmp a b (s_length self);
    Some (r =? 0)
  else
    a ← content_small self;
    b ← content_small other;
    r ← memcmp a b (s_length self);
    Some (r =? 0).

(** The array a pointer designates. *)
Definition deref (self : TSString) (m : mem) (d : char_ptr)
  : option (list memval) :=
  match d with
  | SmallArray => content_small self
  | HeapBlock p => blocks m !! p
  end.

(** [d[ix] = b] *)
Definition store (d : char_ptr) (ix b : Z) (st : TSString * mem)
  : option (TSString * mem) :=
  let '(self, m) := st in
  cs ← deref self m d;
  if decide (0 ≤ ix ∧ (Z.to_nat ix < length cs)%nat) then
    let cs' := <[Z.to_nat ix := Byte b]> cs in
    match d with
    | SmallArray => Some (MkString (small cs') (s_length self), m)
    | HeapBlock p => Some (self, Mem (<[p := cs']> (blocks m)) (events m))
    end
  else None.

(** [data[self->length++] = (char)x] *)
Definition push_char (data : char_ptr) (x : Z) (st : TSString * mem)
  : option (TSString * mem) :=
  '(self, m) ← store data (s_length st.1) (to_char x) st;
  Some (MkString (content self) (u32 (s_length self + 1)), m).

(** The value that the first conditional of [ts_string_push] gives its
    local [utf8_len]. *)
Definition utf8_len (c : Z) : Z :=
  if c <=? 0x7f then 1
  else if c <=? 0x7ff then 2
  else if c <=? 0xffff then 3
  else 4.

(** The last conditional of [ts_string_push]: the stores through [data]. *)
Definition store_utf8 (data : char_ptr) (c : Z) (st : TSString * mem)
  : option (TSString * mem) :=
  if c <=? 0x7f then
    push_char data c st
  else
    st ← (if c <=? 0x7ff then
            push_char data (Z.lor (Z.shiftr c 6) 0xc0) st
          else
            st ← (if c <=? 0xffff then
                    push_char data (Z.lor (Z.shiftr c 12) 0xe0) st
                  else
                    st ← push_char data (Z.lor (Z.shiftr c 18) 0xf0) st;
                    push_char data
                      (Z.lor (Z.land (Z.shiftr c 12) 0x3f) 0x80) st);
            push_char data (Z.lor (Z.land (Z.shiftr c 6) 0x3f) 0x80) st);
    push_char data (Z.lor (Z.land c 0x3f) 0x80) st.

Definition ts_string_push (self : TSString) (c : Z) (m : mem)
  : option (TSString * mem) :=
  let utf8_len := utf8_len c in
  old_capacity ← (if SMALL_LEN <? s_length self
                  then content_large_capacity self
                  else Some SMALL_LEN);
  old_data ← ts_string_data self;
  '(data, st) ←
    (if old_capacity <? u32 (s_length self + utf8_len) then
       let capacity := u32 (old_capacity * 2) in
       '(data, m) ←
         (if SMALL_LEN <? old_capacity then
            match old_data with
            | HeapBlock p => realloc p capacity m
            | SmallArray => None
            end
          else
            let '(data, m) := malloc capacity m in
            src ← deref self m old_data;
            m ← memcpy data src (s_length self) m;
            Some (data, m));
       Some (HeapBlock data,
             (MkString (large data capacity) (s_length self), m))
     else Some (old_data, (self, m)));
  store_utf8 data c st.

(** [data[ix]], promoted to [int]. *)
Definition load (abi : char_abi) (self : TSString) (m : mem)
    (d : char_ptr) (ix : Z) : option Z :=
  cs ← deref self m d;
  if decide (0 ≤ ix) then
    v ← cs !! Z.to_nat ix;
    char_value abi <$> read_cell v
  else None.

(** The result pairs the returned [int32_t] with the value of [*i] on
    return. *)
Definition ts_string_char (abi : char_abi) (self : TSString) (i : Z) (m : mem)
  : option (Z * Z) :=
  data ← ts_string_data self;
  let ix := i in
  if s_length self <=? ix then Some (-1, i)
  else
    c ← load abi self m data ix;
    let ix := u32 (ix + 1) in
    if negb (Z.land c 0x80 =? 0) then
      if c <? 0xe0 then
        d0 ← load abi self m data ix;
        Some (Z.lor (Z.shiftl (Z.land c 0x1f) 6) (Z.land d0 0x3f),
              u32 (ix + 1))
      else if c <? 0xf0 then
        d0 ← load abi self m data ix;
        d1 ← load abi self m data (u32 (ix + 1));
        Some (u16 (Z.lor (Z.lor (Z.shiftl c 12)
                                (Z.shiftl (Z.land d0 0x3f) 6))
                         (Z.land d1 0x3f)),
              u32 (ix + 2))
      else
        d0 ← load abi self m data ix;
        d1 ← load abi self m data (u32 (ix + 1));
        d2 ← load abi self m data (u32 (ix + 2));
        Some (Z.lor (Z.lor (Z.lor (Z.shiftl (Z.land c 7) 18)
                                  (Z.shiftl (Z.land d0 0x3f) 12))
                           (Z.shiftl (Z.land d1 0x3f) 6))
                    (Z.land d2 0x3f),
              u32 (ix + 3))
    else Some (c, ix).

(** A run of pushes, as an external scanner makes them one after another. *)
Fixpoint push_all (cs : list Z) (st : TSString * mem)
  : option (TSString * mem) :=
  match cs with
  | [] => Some st
  | c :: cs' => st' ← ts_string_push st.1 c st.2; push_all cs' st'
  end.

(** ** Lexer macros *)

(** The data fields of [struct TSLexer], and the state of the parse engine
    that its callbacks work on. *)
Record TSLexer (E : Type) := MkLexer {
  lookahead : Z;
  result_symbol : Z;
  engine : E
}.
Arguments MkLexer {E}.
Arguments lookahead {E}.
Arguments result_symbol {E}.
Arguments engine {E}.

(** The function pointers of [struct TSLexer] that the macros call. *)
Class LexerCallbacks (E : Type) := {
  advance : TSLexer E → bool → TSLexer E;
  mark_end : TSLexer E → TSLexer E
}.

(** The locals that [START_LEXER] declares, with the parameter [state] of
    the lex function; [lookahead'] is the local [lookahead].  [state] is a
    [TSStateId] and [result_symbol] a [TSSymbol], both [uint16_t], so the
    macros that assign them reduce the value modulo [2^16]. *)
Record frame := MkFrame {
  result : bool;
  skip : bool;
  eof : bool;
  lookahead' : Z;
  state : Z
}.

Section Macros.
Context {E : Type} `{LexerCallbacks E}.

(** The code at label [start]. *)
Definition at_start (st : TSLexer E * frame) : TSLexer E * frame :=
  let '(lexer, fr) := st in
  (lexer, MkFrame (result fr) false (eof fr) (lookahead lexer) (state fr)).

(** The code at label [next_state], which falls through to [start]. *)
Definition at_next_state (st : TSLexer E * frame) : TSLexer E * frame :=
  let '(lexer, fr) := st in
  at_start (advance lexer (skip fr), fr).

(** The local [lookahead] is declared without a value; [start] assigns it
    before any use, so the frame is built with that first value. *)
Definition START_LEXER (lexer : TSLexer E) (state : Z)
  : TSLexer E * frame :=
  at_start (lexer, MkFrame false false false (lookahead lexer) state).

Definition ADVANCE (state_value : Z) (st : TSLexer E * frame)
  : TSLexer E * frame :=
  let '(lexer, fr) := st in
  at_next_state
    (lexer, MkFrame (result fr) (skip fr) (eof fr) (lookahead' fr)
                    (u16 state_value)).

Definition SKIP (state_value : Z) (st : TSLexer E * frame)
  : TSLexer E * frame :=
  let '(lexer, fr) := st in
  at_next_state
    (lexer, MkFrame (result fr) true (eof fr) (lookahead' fr)
                    (u16 state_value)).

Definition ACCEPT_TOKEN (symbol_value : Z) (st : TSLexer E * frame)
  : TSLexer E * frame :=
  let '(lexer, fr) := st in
  (mark_end (MkLexer (lookahead lexer) (u16 symbol_value) (engine lexer)),
   MkFrame true (skip fr) (eof fr) (lookahead' fr) (state fr)).

(** [return result;] *)
Definition END_STATE (st : TSLexer E * frame) : bool := result st.2.

(** A lex function is a [switch] on [state] whose cases are built from
    the macros: each run of it is [START_LEXER], then a finite sequence of
    [ACCEPT_TOKEN], [ADVANCE] and [SKIP], then [END_STATE]. *)
Inductive macro :=
  | Advance (state_value : Z)
  | Skip (state_value : Z)
  | Accept (symbol_value : Z).

Definition exec (st : TSLexer E * frame) (o : macro) : TSLexer E * frame :=
  match o with
  | Advance s => ADVANCE s st
  | Skip s => SKIP s st
  | Accept sym => ACCEPT_TOKEN sym st
  end.

Definition exec_all (ops : list macro) (st : TSLexer E * frame)
  : TSLexer E * frame :=
  fold_left exec ops st.

(** A whole run: what the lex function returns, and the lexer it leaves. *)
Definition run (lexer : TSLexer E) (state : Z) (ops : list macro)
  : bool * TSLexer E :=
  let st := exec_all ops (START_LEXER lexer state) in
  (END_STATE st, st.1).

Definition is_accept (o : macro) : bool :=
  match o with Accept _ => true | _ => false end.
End Macros.

(** Modelled from the spec: the lexer context that the parse engine
    supplies, of which [parser.h] has only the function pointer types.  The
    cursor holds the input units still to be read, the current position, the
    start of the token (moved forward over skipped units) and the end that
    was last marked; the lookahead is the unit under the cursor, or 0 at the
    end of the input. *)
Record cursor := MkCursor {
  input : list Z;
  position : Z;
  token_start : Z;
  token_end : Z
}.

(** Modelled from the spec: the callback [advance], which consumes the
    unit under the cursor; with [skip] set the unit is kept out of the
    token.  At the end of the input there is nothing to consume. *)
Definition cursor_advance (lexer : TSLexer cursor) (skip : bool)
  : TSLexer cursor :=
  let c := engine lexer in
  match input c with
  | [] => lexer
  | _ :: rest =>
      MkLexer (hd 0 rest) (result_symbol lexer)
        (MkCursor rest (position c + 1)
           (if skip then position c + 1 else token_start c) (token_end c))
  end.

(** Modelled from the spec: the callback [mark_end], which records the
    current position as the end of the token. *)
Definition cursor_mark_end (lexer : TSLexer cursor) : TSLexer cursor :=
  let c := engine lexer in
  MkLexer (lookahead lexer) (result_symbol lexer)
    (MkCursor (input c) (position c) (token_start c) (position c)).

#[export] Instance cursor_callbacks : LexerCallbacks cursor := {
  advance := cursor_advance;
  mark_end := cursor_mark_end
}.

Definition cursor_lexer (units : list Z) : TSLexer cursor :=
  MkLexer (hd 0 units) 0 (MkCursor units 0 0 0).

(** ** What a string holds *)

(** The [char] values that [store_utf8] writes for [c], in the order in
    which it writes them. *)
Definition utf8_bytes (c : Z) : list Z :=
  if c <=? 0x7f then [to_char c]
  else
    ((if c <=? 0x7ff then [to_char (Z.lor (Z.shiftr c 6) 0xc0)]
      else
        (if c <=? 0xffff then [to_char (Z.lor (Z.shiftr c 12) 0xe0)]
         else [to_char (Z.lor (Z.shiftr c 18) 0xf0);
               to_char (Z.lor (Z.land (Z.shiftr c 12) 0x3f) 0x80)])
        ++ [to_char (Z.lor (Z.land (Z.shiftr c 6) 0x3f) 0x80)])
     ++ [to_char (Z.lor (Z.land c 0x3f) 0x80)]).

(** The bytes a caller finds behind [ts_string_data], up to [length]. *)
Definition stored_bytes (self : TSString) (m : mem) : option (list Z) :=
  d ← ts_string_data self;
  cs ← deref self m d;
  read_bytes cs (s_length self).

Definition is_inline (self : TSString) : bool :=
  match content self with small _ => true | large _ _ => false end.

(** [repr m self bs]: [self] is a well-formed string of memory [m] and
    holds the bytes [bs].  Inline, [length] is at most [SMALL_LEN] and the
    bytes start the array [small]; otherwise [length] exceeds [SMALL_LEN],
    [large.data] names a live block of [large.capacity] cells and the bytes
    start that block. *)
Inductive repr (m : mem) (self : TSString) (bs : list Z) : Prop :=
  | repr_small (rest : list memval) :
      content self = small ((Byte <$> bs) ++ rest) →
      s_length self = Z.of_nat (length bs) →
      Z.of_nat (length bs + length rest) = SMALL_LEN →
      repr m self bs
  | repr_large (p : positive) (cap : Z) (rest : list memval) :
      content self = large p cap →
      blocks m !! p = Some ((Byte <$> bs) ++ rest) →
      s_length self = Z.of_nat (length bs) →
      SMALL_LEN < s_length self →
      Z.of_nat (length bs + length rest) = cap →
      cap < 2 ^ 32 →
      repr m self bs.

(** The effect of a run of stores through [d] that leaves the array [cs]
    and the length [n]. *)
Definition put (d : char_ptr) (st : TSString * mem) (cs : list memval) (n : Z)
  : TSString * mem :=
  match d with
  | SmallArray => (MkString (small cs) n, st.2)
  | HeapBlock p =>
      (MkString (content st.1) n,
       Mem (<[p := cs]> (blocks st.2)) (events st.2))
  end.

(** The bytes that a run of pushes stores, one codepoint after another. *)
Definition utf8_string (cs : list Z) : list Z := flat_map utf8_bytes cs.

Definition is_realloc (e : event) : bool :=
  match e with Realloc _ _ _ => true | _ => false end.

(** The sum of the encoded lengths of a run of codepoints. *)
Definition total_len (cs : list Z) : Z := foldr (λ c n, utf8_len c + n) 0 cs.

(** Unicode scalar values: the codepoints outside the surrogate range. *)
Definition scalar_value (c : Z) : Prop :=
  0 ≤ c ≤ 0x10FFFF ∧ ¬ (0xD800 ≤ c ≤ 0xDFFF).

(** [c], pushed onto a fresh string, is read back at offset 0, and the
    index moves on by the encoded length. *)
Definition roundtrip (abi : char_abi) (m : mem) (c : Z) : Prop :=
  ∃ self m', ts_string_push ts_string_new c m = Some (self, m')
             ∧ ts_string_char abi self 0 m' = Some (c, utf8_len c).

(** The four codepoints of the worked example: A, e with acute, the CJK
    ideograph U+4E2D and the emoji U+1F600. *)
Definition example_codepoints : list Z := [0x41; 0xE9; 0x4E2D; 0x1F600].

(** Example objects: thirteen bytes held twice on the heap, in blocks of
    different capacity, and a scan of the input [" abc!"]. *)
Definition example_bytes : list Z :=
  [0x68; 0x65; 0x6C; 0x6C; 0x6F; 0x2C; 0x20; 0x77; 0x6F; 0x72; 0x6C; 0x64; 0x21].

Definition example_mem : mem :=
  Mem (<[2%positive := Byte <$> example_bytes]>
         {[1%positive := (Byte <$> example_bytes) ++ replicate 11 Undef]})
      [Malloc 1 24; Malloc 2 13].

Definition example_large : TSString := MkString (large 1 24) 13.
Definition example_large' : TSString := MkString (large 2 13) 13.

Definition example_lexer : TSLexer cursor :=
  cursor_lexer [0x20; 0x61; 0x62; 0x63; 0x21].
Definition example_pre : list macro := [Skip 1; Advance 2].
Definition example_mid : list macro := [Advance 3].
Definition example_post : list macro := [Advance 4].

(** ** Ownership *)

(** [owns m0 m self]: the memory [m] is [m0] with, for a heap string, the
    one block of [self] added; an inline string adds nothing. *)
Definition owns (m0 m : mem) (self : TSString) : Prop :=
  match content self with
  | small _ => blocks m = blocks m0
  | large p _ =>
      blocks m0 !! p = None ∧ ∃ blk, blocks m = <[p := blk]> (blocks m0)
  end.

(** [apart self other]: the two strings do not name the same block. *)
Definition apart (self other : TSString) : Prop :=
  ∀ p, content_large_data self = Some p → content_large_data other ≠ Some p.

(** A run of codepoints that takes a string to the heap and doubles its
    block once: 25 bytes in all. *)
Definition example_long : list Z :=
  [0x4E2D; 0x4E2D; 0x4E2D; 0x4E2D; 0x41; 0x1F600; 0x1F600; 0x1F600].

(** [grown m0 m self]: since memory [m0] an inline string has caused no
    call of the allocator; a heap string has caused [k] of them, holds a
    block of [12 * 2^k] cells, and fills more than half of it. *)
Definition grown (m0 m : mem) (self : TSString) : Prop :=
  match content self with
  | small _ => events m = events m0
  | large _ cap =>
      ∃ k, 1 ≤ k
           ∧ cap = SMALL_LEN * 2 ^ k
           ∧ cap < 2 * s_length self
           ∧ length (events m) = (length (events m0) + Z.to_nat k)%nat
  end.

(** A string as [ts_string_from] makes it from thirteen bytes of which the
    last opens a two-byte sequence. *)
Definition example_cut_bytes : list Z :=
  [0x68; 0x65; 0x6C; 0x6C; 0x6F; 0x2C; 0x20; 0x77; 0x6F; 0x72; 0x6C; 0x64].

Definition example_cut_mem : mem :=
  Mem {[1%positive := Byte <$> (example_cut_bytes ++ [0xC3])]} [Malloc 1 13].

Definition example_cut : TSString := MkString (large 1 13) 13.

(** ** Calls of the callbacks *)

(** What one macro does to the lexer when the flag that [ADVANCE] passes is
    [false] and the one that [SKIP] passes is [true]. *)
Definition lexer_step {E : Type} `{LexerCallbacks E}
    (lexer : TSLexer E) (o : macro) : TSLexer E :=
  match o with
  | Advance _ => advance lexer false
  | Skip _ => advance lexer true
  | Accept sym =>
      mark_end (MkLexer (lookahead lexer) (u16 sym) (engine lexer))
  end.

(** The state that the last [ADVANCE] or [SKIP] of a run names. *)
Definition state_step (state : Z) (o : macro) : Z :=
  match o with
  | Advance v => u16 v
  | Skip v => u16 v
  | Accept _ => state
  end.

(** Comparisons on [Z] in the goal that [lia] can settle. *)
Ltac cmp_by_lia :=
  repeat match goal with
    | |- context [?a <? ?b] =>
        first [ rewrite (proj2 (Z.ltb_lt a b)) by (Z.div_mod_to_equations; lia)
              | rewrite (proj2 (Z.ltb_ge a b)) by (Z.div_mod_to_equations; lia) ]
    | |- context [?a <=? ?b] =>
        first [ rewrite (proj2 (Z.leb_le a b)) by (Z.div_mod_to_equations; lia)
              | rewrite (proj2 (Z.leb_gt a b)) by (Z.div_mod_to_equations; lia) ]
    end.

(** * Theorems *)

(** ** Machine integers *)

Lemma u32_small (x : Z) : 0 ≤ x < 2 ^ 32 → u32 x = x.
Proof. intros Hx. unfold u32. apply Z.mod_small, Hx. Qed.

Lemma to_char_small (x : Z) : 0 ≤ x < 256 → to_char x = x.
Proof. intros Hx. unfold to_char. apply Z.mod_small. simpl. lia. Qed.

Lemma to_char_range (x : Z) : 0 ≤ to_char x < 256.
Proof. unfold to_char. change (2 ^ 8) with 256. apply Z.mod_pos_bound. lia. Qed.

Lemma utf8_len_range (c : Z) : 1 ≤ utf8_len c ≤ 4.
Proof. unfold utf8_len. repeat case_match; lia. Qed.

Lemma utf8_bytes_length (c : Z) : Z.of_nat (length (utf8_bytes c)) = utf8_len c.
Proof. unfold utf8_bytes, utf8_len. repeat case_match; reflexivity. Qed.

(** ** Stores through a pointer *)

Lemma deref_put (d : char_ptr) (st : TSString * mem) (cs : list memval) (n : Z) :
  deref (put d st cs n).1 (put d st cs n).2 d = Some cs.
Proof.
  destruct d as [|p]; simpl; [reflexivity|]. apply lookup_insert_eq.
Qed.

Lemma put_put (d : char_ptr) (st : TSString * mem) (cs cs' : list memval) (n n' : Z) :
  put d (put d st cs n) cs' n' = put d st cs' n'.
Proof.
  destruct d as [|p]; simpl; [reflexivity|]. by rewrite insert_insert_eq.
Qed.

Lemma push_char_put (d : char_ptr) (x : Z) (st : TSString * mem)
    (bs : list Z) (v : memval) (rest : list memval) :
  deref st.1 st.2 d = Some ((Byte <$> bs) ++ v :: rest) →
  s_length st.1 = Z.of_nat (length bs) →
  Z.of_nat (length bs) + 1 < 2 ^ 32 →
  push_char d x st =
    Some (put d st ((Byte <$> (bs ++ [to_char x])) ++ rest)
              (Z.of_nat (length bs) + 1)).
Proof.
  intros Hd Hlen Hbound. destruct st as [self m]. simpl in *.
  unfold push_char, store. simpl. rewrite Hd. simpl.
  assert (Hix : Z.to_nat (s_length self) = length (Byte <$> bs)).
  { rewrite length_fmap, Hlen. lia. }
  rewrite decide_True.
  2:{ split; [lia|]. rewrite Hix, length_app. simpl. lia. }
  assert (Hins : <[Z.to_nat (s_length self) := Byte (to_char x)]>
                   ((Byte <$> bs) ++ v :: rest)
                 = (Byte <$> (bs ++ [to_char x])) ++ rest).
  { rewrite Hix, insert_app_r_alt, Nat.sub_diag, fmap_app, <- app_assoc by lia.
    reflexivity. }
  rewrite Hins.
  destruct d as [|p]; simpl; rewrite Hlen, u32_small by lia; reflexivity.
Qed.

Lemma put_id (d : char_ptr) (st : TSString * mem) (cs : list memval) (n : Z) :
  deref st.1 st.2 d = Some cs → s_length st.1 = n → put d st cs n = st.
Proof.
  destruct st as [[ct k] [blk ev]], d as [|p]; simpl; intros Hd <-.
  - unfold content_small in Hd. simpl in Hd. destruct ct; by simplify_eq.
  - by rewrite insert_id.
Qed.

Lemma push_char_chain (d : char_ptr) (x : Z) (st0 : TSString * mem)
    (bs : list Z) (v : memval) (rest : list memval) :
  Z.of_nat (length bs) + 1 < 2 ^ 32 →
  push_char d x (put d st0 ((Byte <$> bs) ++ v :: rest) (Z.of_nat (length bs))) =
    Some (put d st0 ((Byte <$> (bs ++ [to_char x])) ++ rest)
              (Z.of_nat (length (bs ++ [to_char x])))).
Proof.
  intros Hb.
  rewrite (push_char_put d x _ bs v rest); [|apply deref_put| |done].
  - rewrite put_put, length_app. simpl. do 2 f_equal. lia.
  - by destruct d.
Qed.

Lemma store_utf8_put (d : char_ptr) (c : Z) (st : TSString * mem)
    (bs : list Z) (rest : list memval) :
  deref st.1 st.2 d = Some ((Byte <$> bs) ++ rest) →
  s_length st.1 = Z.of_nat (length bs) →
  utf8_len c ≤ Z.of_nat (length rest) →
  Z.of_nat (length bs) + 4 < 2 ^ 32 →
  store_utf8 d c st =
    Some (put d st ((Byte <$> (bs ++ utf8_bytes c))
                    ++ drop (Z.to_nat (utf8_len c)) rest)
              (Z.of_nat (length bs) + utf8_len c)).
Proof.
  intros Hd Hlen Hfit Hb.
  rewrite <- (put_id d st _ _ Hd Hlen) at 1.
  replace (Z.of_nat (length bs) + utf8_len c)
    with (Z.of_nat (length (bs ++ utf8_bytes c)))
    by (rewrite length_app, Nat2Z.inj_add, utf8_bytes_length; lia).
  revert Hfit. unfold store_utf8, utf8_bytes, utf8_len.
  repeat case_match; intros Hfit;
    repeat (destruct rest as [|? rest]; [simpl in Hfit; lia|]);
    simpl drop;
    repeat (rewrite push_char_chain
              by (rewrite ?length_app; simpl length; lia);
            simpl mbind; rewrite <- ?app_assoc; simpl app);
    reflexivity.
Qed.

(** ** [ts_string_push] on well-formed strings *)

#[local] Arguments replicate : simpl never.

Lemma repr_length (m : mem) (self : TSString) (bs : list Z) :
  repr m self bs → s_length self = Z.of_nat (length bs).
Proof. by intros []. Qed.

Lemma repr_inline (m : mem) (self : TSString) (bs : list Z) :
  repr m self bs →
  is_inline self = bool_decide (s_length self ≤ SMALL_LEN).
Proof.
  intros [rest Hc Hl Hsz|p cap rest Hc Hb Hl Hgt Hsz Hcap];
    unfold is_inline; rewrite Hc; symmetry.
  - apply bool_decide_eq_true. lia.
  - apply bool_decide_eq_false. lia.
Qed.

(** While the bytes fit the inline array, a push touches neither the heap
    nor the log. *)
Lemma push_inline (m : mem) (self : TSString) (bs : list Z) (c : Z) :
  repr m self bs →
  Z.of_nat (length bs) + utf8_len c ≤ SMALL_LEN →
  ∃ self', ts_string_push self c m = Some (self', m)
           ∧ repr m self' (bs ++ utf8_bytes c)
           ∧ is_inline self' = true.
Proof.
  pose proof (utf8_len_range c) as Hu. unfold SMALL_LEN.
  intros [rest Hc Hl Hsz|p cap rest Hc Hb Hl Hgt Hsz Hcap] Hfit;
    [|unfold SMALL_LEN in *; lia].
  unfold SMALL_LEN in Hsz. rewrite Nat2Z.inj_add in Hsz.
  unfold ts_string_push, ts_string_data, SMALL_LEN.
  assert ((12 <? s_length self) = false) as -> by (apply Z.ltb_ge; lia).
  simpl. rewrite u32_small by lia.
  assert ((12 <? s_length self + utf8_len c) = false) as ->
    by (apply Z.ltb_ge; lia).
  simpl.
  rewrite (store_utf8_put SmallArray c (self, m) bs rest); simpl;
    [|by unfold content_small; rewrite Hc|done|lia|lia].
  eexists. split; [reflexivity|]. split; [|reflexivity].
  eapply repr_small; simpl; [reflexivity| |].
  - rewrite length_app, Nat2Z.inj_add, utf8_bytes_length. reflexivity.
  - rewrite length_app, length_drop, !Nat2Z.inj_add, utf8_bytes_length.
    unfold SMALL_LEN. lia.
Qed.

(** The push that takes the length past the inline array: one [malloc] of
    twice [SMALL_LEN], the old bytes copied to its start, the new ones
    stored after them. *)
Lemma push_spill (m : mem) (self : TSString) (bs : list Z) (c : Z) :
  repr m self bs →
  Z.of_nat (length bs) ≤ SMALL_LEN < Z.of_nat (length bs) + utf8_len c →
  let p := fresh (dom (blocks m)) in
  let blk := (Byte <$> (bs ++ utf8_bytes c))
             ++ replicate (Z.to_nat (24 - Z.of_nat (length bs) - utf8_len c)) Undef in
  ts_string_push self c m =
    Some (MkString (large p 24) (Z.of_nat (length bs) + utf8_len c),
          Mem (<[p := blk]> (blocks m)) (events m ++ [Malloc p 24])).
Proof.
  pose proof (utf8_len_range c) as Hu.
  intros Hr Hfit p blk. unfold SMALL_LEN in Hfit.
  destruct Hr as [rest Hc Hl Hsz|p' cap rest Hc Hb Hl Hgt Hsz Hcap];
    [|unfold SMALL_LEN in *; lia].
  unfold SMALL_LEN in Hsz. rewrite Nat2Z.inj_add in Hsz.
  unfold ts_string_push, ts_string_data, SMALL_LEN.
  assert ((12 <? s_length self) = false) as -> by (apply Z.ltb_ge; lia).
  simpl. rewrite u32_small by lia.
  assert ((12 <? s_length self + utf8_len c) = true) as ->
    by (apply Z.ltb_lt; lia).
  simpl. unfold content_small. rewrite Hc. simpl.
  unfold memcpy. simpl. fold p. rewrite lookup_insert_eq. simpl.
  rewrite decide_True.
  2:{ rewrite length_app, length_fmap. lia. }
  simpl. rewrite insert_insert_eq. change (u32 (12 * 2)) with 24.
  replace (Z.to_nat (s_length self)) with (length (Byte <$> bs))
    by (rewrite length_fmap; lia).
  rewrite take_app_length, drop_replicate, length_fmap.
  rewrite (store_utf8_put (HeapBlock p) c _ bs
             (replicate (Z.to_nat 24 - length bs) Undef)); simpl;
    [|apply lookup_insert_eq|done|rewrite length_replicate; lia|lia].
  rewrite insert_insert_eq, drop_replicate. unfold blk.
  replace (Z.to_nat 24 - length bs - Z.to_nat (utf8_len c))%nat
    with (Z.to_nat (24 - Z.of_nat (length bs) - utf8_len c)) by lia.
  reflexivity.
Qed.

(** A push on a heap string stays on the heap: it stores in place when the
    block has room and otherwise moves the block to one of twice the
    capacity. *)
Lemma push_large (m : mem) (self : TSString) (bs : list Z) (c : Z) :
  repr m self bs →
  SMALL_LEN < Z.of_nat (length bs) →
  Z.of_nat (length bs) + utf8_len c ≤ 2 ^ 31 →
  ∃ self' m', ts_string_push self c m = Some (self', m')
    ∧ repr m' self' (bs ++ utf8_bytes c)
    ∧ is_inline self' = false
    ∧ (events m' = events m
       ∨ ∃ p q n, events m' = events m ++ [Realloc p q n]).
Proof.
  pose proof (utf8_len_range c) as Hu.
  intros Hr Hgt Hmax. unfold SMALL_LEN in Hgt.
  destruct Hr as [rest Hc Hl Hsz|p cap rest Hc Hb Hl _ Hsz Hcap];
    [unfold SMALL_LEN in *; lia|].
  rewrite Nat2Z.inj_add in Hsz.
  unfold ts_string_push, ts_string_data, SMALL_LEN,
    content_large_capacity, content_large_data.
  assert ((12 <? s_length self) = true) as -> by (apply Z.ltb_lt; lia).
  rewrite Hc. simpl. rewrite u32_small by lia.
  destruct (cap <? s_length self + utf8_len c) eqn:Hgrow.
  - apply Z.ltb_lt in Hgrow.
    assert ((12 <? cap) = true) as -> by (apply Z.ltb_lt; lia).
    unfold realloc. rewrite Hb. simpl.
    set (q := fresh (dom (blocks m))).
    rewrite u32_small by lia.
    replace (Z.to_nat (cap * 2))
      with (length ((Byte <$> bs) ++ rest) + Z.to_nat cap)%nat
      by (rewrite length_app, length_fmap; lia).
    rewrite resize_add_eq, <- app_assoc by reflexivity.
    rewrite (store_utf8_put (HeapBlock q) c _ bs
               (rest ++ replicate (Z.to_nat cap) Undef)); simpl;
      [|apply lookup_insert_eq|done
       |rewrite length_app, length_replicate; lia|lia].
    rewrite insert_insert_eq. do 2 eexists. split; [reflexivity|].
    split; [|split; [reflexivity|right; eauto]].
    eapply repr_large; simpl; [reflexivity|apply lookup_insert_eq| | | |lia].
    + rewrite length_app, Nat2Z.inj_add, utf8_bytes_length. lia.
    + unfold SMALL_LEN. lia.
    + rewrite !length_app, length_drop, length_app, length_replicate.
      pose proof (utf8_bytes_length c). lia.
  - apply Z.ltb_ge in Hgrow. simpl.
    rewrite (store_utf8_put (HeapBlock p) c _ bs rest); simpl;
      [|done|done|lia|lia].
    do 2 eexists. split; [reflexivity|].
    split; [|split; [by unfold is_inline; simpl; rewrite Hc|by left]].
    eapply repr_large; simpl; [exact Hc|apply lookup_insert_eq| | | |exact Hcap].
    + rewrite length_app, Nat2Z.inj_add, utf8_bytes_length. lia.
    + unfold SMALL_LEN. lia.
    + rewrite !length_app, length_drop.
      pose proof (utf8_bytes_length c). lia.
Qed.

Lemma push_spill_repr (m : mem) (self : TSString) (bs : list Z) (c : Z) :
  repr m self bs →
  Z.of_nat (length bs) ≤ SMALL_LEN < Z.of_nat (length bs) + utf8_len c →
  ∃ p self' m', ts_string_push self c m = Some (self', m')
    ∧ repr m' self' (bs ++ utf8_bytes c)
    ∧ content self' = large p 24
    ∧ blocks m !! p = None
    ∧ events m' = events m ++ [Malloc p 24]
    ∧ ∀ q, q ≠ p → blocks m' !! q = blocks m !! q.
Proof.
  intros Hr Hx. pose proof (utf8_len_range c) as Hu.
  pose proof (utf8_bytes_length c) as Hlen.
  pose proof (push_spill m self bs c Hr Hx) as Hpush. simpl in Hpush.
  unfold SMALL_LEN in Hx.
  eexists _, _, _. split; [exact Hpush|]. simpl.
  split; [|split; [reflexivity|split; [|split; [reflexivity|]]]].
  - eapply repr_large; simpl;
      [reflexivity|apply lookup_insert_eq| | | |done].
    + rewrite length_app. lia.
    + unfold SMALL_LEN. lia.
    + rewrite length_replicate, length_app. lia.
  - apply not_elem_of_dom, is_fresh.
  - intros q Hq. by rewrite lookup_insert_ne.
Qed.

(** Every push on a well-formed string of at most 2 GiB returns, and
    appends the bytes of [utf8_bytes]. *)
Lemma push_repr (m : mem) (self : TSString) (bs : list Z) (c : Z) :
  repr m self bs →
  Z.of_nat (length bs) + utf8_len c ≤ 2 ^ 31 →
  ∃ self' m', ts_string_push self c m = Some (self', m')
    ∧ repr m' self' (bs ++ utf8_bytes c).
Proof.
  intros Hr Hmax.
  destruct (decide (Z.of_nat (length bs) + utf8_len c ≤ SMALL_LEN)) as [Hfit|Hfit].
  { destruct (push_inline m self bs c Hr Hfit) as (self' & Hp & Hr' & _). eauto. }
  destruct (decide (Z.of_nat (length bs) ≤ SMALL_LEN)) as [Hin|Hin].
  { destruct (push_spill_repr m self bs c Hr) as (p & self' & m' & Hp & Hr' & _);
      [lia|eauto]. }
  destruct (push_large m self bs c Hr) as (self' & m' & Hp & Hr' & _);
    [lia|lia|eauto].
Qed.

Lemma total_len_nonneg (cs : list Z) : 0 ≤ total_len cs.
Proof.
  induction cs as [|c cs IH]; simpl; [done|].
  pose proof (utf8_len_range c). lia.
Qed.

Lemma total_len_app (cs ds : list Z) :
  total_len (cs ++ ds) = total_len cs + total_len ds.
Proof. induction cs as [|c cs IH]; simpl; lia. Qed.

Lemma utf8_string_length (cs : list Z) :
  Z.of_nat (length (utf8_string cs)) = total_len cs.
Proof.
  induction cs as [|c cs IH]; simpl; [done|].
  rewrite length_app, Nat2Z.inj_add, utf8_bytes_length. lia.
Qed.

Lemma utf8_string_app (cs ds : list Z) :
  utf8_string (cs ++ ds) = utf8_string cs ++ utf8_string ds.
Proof. apply flat_map_app. Qed.

Lemma push_all_repr (cs : list Z) (m : mem) (self : TSString) (bs : list Z) :
  repr m self bs →
  Z.of_nat (length bs) + total_len cs ≤ 2 ^ 31 →
  ∃ self' m', push_all cs (self, m) = Some (self', m')
    ∧ repr m' self' (bs ++ utf8_string cs).
Proof.
  revert m self bs.
  induction cs as [|c cs IH]; intros m self bs Hr Hmax; simpl in *.
  { rewrite app_nil_r. eauto. }
  pose proof (total_len_nonneg cs) as Hnn.
  destruct (push_repr m self bs c Hr) as (s1 & m1 & Hp & Hr1); [lia|].
  rewrite Hp. simpl.
  destruct (IH m1 s1 _ Hr1) as (s2 & m2 & Hq & Hr2).
  { rewrite length_app, Nat2Z.inj_add, utf8_bytes_length. lia. }
  rewrite <- app_assoc in Hr2. eauto.
Qed.

Lemma push_all_inline (cs : list Z) (m : mem) (self : TSString) (bs : list Z) :
  repr m self bs →
  Z.of_nat (length bs) + total_len cs ≤ SMALL_LEN →
  ∃ self', push_all cs (self, m) = Some (self', m)
    ∧ repr m self' (bs ++ utf8_string cs)
    ∧ is_inline self' = true.
Proof.
  revert self bs.
  induction cs as [|c cs IH]; intros self bs Hr Hmax; simpl in *.
  { rewrite app_nil_r. eexists. split; [done|]. split; [done|].
    rewrite (repr_inline _ _ _ Hr), (repr_length _ _ _ Hr).
    apply bool_decide_eq_true. lia. }
  pose proof (total_len_nonneg cs) as Hnn.
  destruct (push_inline m self bs c Hr) as (s1 & Hp & Hr1 & _); [lia|].
  rewrite Hp. simpl.
  destruct (IH s1 _ Hr1) as (s2 & Hq & Hr2 & Hi).
  { rewrite length_app, Nat2Z.inj_add, utf8_bytes_length. lia. }
  rewrite <- app_assoc in Hr2. eauto.
Qed.

Lemma push_all_large (cs : list Z) (m : mem) (self : TSString) (bs : list Z) :
  repr m self bs →
  SMALL_LEN < Z.of_nat (length bs) →
  Z.of_nat (length bs) + total_len cs ≤ 2 ^ 31 →
  ∃ self' m', push_all cs (self, m) = Some (self', m')
    ∧ repr m' self' (bs ++ utf8_string cs)
    ∧ is_inline self' = false
    ∧ ∃ evs, events m' = events m ++ evs
             ∧ Forall (λ e, is_realloc e = true) evs.
Proof.
  revert m self bs.
  induction cs as [|c cs IH]; intros m self bs Hr Hgt Hmax; simpl in *.
  { rewrite app_nil_r. eexists _, _. split; [done|]. split; [done|]. split.
    - rewrite (repr_inline _ _ _ Hr), (repr_length _ _ _ Hr).
      apply bool_decide_eq_false. lia.
    - exists []. by rewrite app_nil_r. }
  pose proof (total_len_nonneg cs) as Hnn.
  pose proof (utf8_len_range c) as Hu.
  destruct (push_large m self bs c Hr Hgt) as (s1 & m1 & Hp & Hr1 & _ & Hev);
    [lia|].
  rewrite Hp. simpl.
  destruct (IH m1 s1 _ Hr1) as (s2 & m2 & Hq & Hr2 & Hi & evs & Hevs & Hall).
  { rewrite length_app. lia. }
  { rewrite length_app, Nat2Z.inj_add, utf8_bytes_length. lia. }
  rewrite <- app_assoc in Hr2.
  eexists _, _. split; [done|]. split; [done|]. split; [done|].
  destruct Hev as [Hev|(p & q & n & Hev)]; rewrite Hev in Hevs.
  - eauto.
  - exists (Realloc p q n :: evs). rewrite <- app_assoc in Hevs.
    split; [done|]. by constructor.
Qed.

(** ** Bit operations as arithmetic *)

Lemma lor_add (hi lo k : Z) :
  0 ≤ k → hi mod 2 ^ k = 0 → 0 ≤ lo < 2 ^ k → Z.lor hi lo = hi + lo.
Proof.
  intros Hk Hhi Hlo.
  assert (Hland : Z.land hi lo = 0).
  { apply Z.bits_inj'. intros n Hn. rewrite Z.land_spec, Z.bits_0.
    destruct (Z.lt_ge_cases n k) as [Hlt|Hge].
    - rewrite <- (Z.mod_pow2_bits_low hi k n), Hhi, Z.bits_0 by lia. reflexivity.
    - destruct (Z.eq_dec lo 0) as [->|Hne].
      + rewrite Z.bits_0. apply andb_false_r.
      + rewrite (Z.bits_above_log2 lo n), andb_false_r; [reflexivity|lia|].
        apply Z.lt_le_trans with k; [|lia].
        apply Z.log2_lt_pow2; lia. }
  rewrite <- Z.lxor_lor, <- Z.add_nocarry_lxor by exact Hland. reflexivity.
Qed.

Lemma land_0x3f (x : Z) : Z.land x 0x3f = x mod 64.
Proof. change 0x3f with (Z.ones 6). rewrite Z.land_ones by lia. reflexivity. Qed.

Lemma land_0x1f (x : Z) : Z.land x 0x1f = x mod 32.
Proof. change 0x1f with (Z.ones 5). rewrite Z.land_ones by lia. reflexivity. Qed.

Lemma land_7 (x : Z) : Z.land x 7 = x mod 8.
Proof. change 7 with (Z.ones 3). rewrite Z.land_ones by lia. reflexivity. Qed.

Lemma continuation_byte (x : Z) : Z.lor (Z.land x 0x3f) 0x80 = 128 + x mod 64.
Proof.
  rewrite land_0x3f, Z.lor_comm. apply (lor_add 128 (x mod 64) 6); [lia|done|].
  apply Z.mod_pos_bound. lia.
Qed.

Lemma lead_byte_2 (c : Z) :
  0 ≤ c ≤ 0x7ff → Z.lor (Z.shiftr c 6) 0xc0 = 192 + c / 64.
Proof.
  intros Hc. rewrite Z.shiftr_div_pow2, Z.lor_comm by lia.
  apply (lor_add 192 _ 6); [lia|done|]. change (2 ^ 6) with 64.
  Z.div_mod_to_equations. lia.
Qed.

Lemma lead_byte_3 (c : Z) :
  0 ≤ c ≤ 0xffff → Z.lor (Z.shiftr c 12) 0xe0 = 224 + c / 4096.
Proof.
  intros Hc. rewrite Z.shiftr_div_pow2, Z.lor_comm by lia.
  apply (lor_add 224 _ 5); [lia|done|]. change (2 ^ 12) with 4096. change (2 ^ 5) with 32.
  Z.div_mod_to_equations. lia.
Qed.

Lemma lead_byte_4 (c : Z) :
  0 ≤ c ≤ 0x1fffff → Z.lor (Z.shiftr c 18) 0xf0 = 240 + c / 262144.
Proof.
  intros Hc. rewrite Z.shiftr_div_pow2, Z.lor_comm by lia.
  apply (lor_add 240 _ 4); [lia|done|]. change (2 ^ 18) with 262144. change (2 ^ 4) with 16.
  Z.div_mod_to_equations. lia.
Qed.

Lemma decode_2 (c0 d0 : Z) :
  Z.lor (Z.shiftl (Z.land c0 0x1f) 6) (Z.land d0 0x3f)
  = c0 mod 32 * 64 + d0 mod 64.
Proof.
  rewrite land_0x1f, land_0x3f, Z.shiftl_mul_pow2 by lia. change (2 ^ 6) with 64.
  apply (lor_add _ _ 6); [lia| |]; change (2 ^ 6) with 64.
  - apply Z.mod_mul. lia.
  - apply Z.mod_pos_bound. lia.
Qed.

Lemma decode_3 (c0 d0 d1 : Z) :
  Z.lor (Z.lor (Z.shiftl c0 12) (Z.shiftl (Z.land d0 0x3f) 6)) (Z.land d1 0x3f)
  = c0 * 4096 + d0 mod 64 * 64 + d1 mod 64.
Proof.
  rewrite !land_0x3f, !Z.shiftl_mul_pow2 by lia.
  change (2 ^ 6) with 64. change (2 ^ 12) with 4096.
  rewrite (lor_add (c0 * 4096) _ 12); [|lia|apply Z.mod_mul; lia|].
  2:{ change (2 ^ 12) with 4096. Z.div_mod_to_equations. lia. }
  apply (lor_add _ _ 6); [lia| |]; change (2 ^ 6) with 64.
  - Z.div_mod_to_equations. lia.
  - apply Z.mod_pos_bound. lia.
Qed.

Lemma decode_4 (c0 d0 d1 d2 : Z) :
  Z.lor (Z.lor (Z.lor (Z.shiftl (Z.land c0 7) 18)
                      (Z.shiftl (Z.land d0 0x3f) 12))
               (Z.shiftl (Z.land d1 0x3f) 6))
        (Z.land d2 0x3f)
  = c0 mod 8 * 262144 + d0 mod 64 * 4096 + d1 mod 64 * 64 + d2 mod 64.
Proof.
  rewrite land_7, !land_0x3f, !Z.shiftl_mul_pow2 by lia.
  change (2 ^ 6) with 64. change (2 ^ 12) with 4096. change (2 ^ 18) with 262144.
  rewrite (lor_add (c0 mod 8 * 262144) _ 18); [|lia|apply Z.mod_mul; lia|].
  2:{ change (2 ^ 18) with 262144. Z.div_mod_to_equations. lia. }
  rewrite (lor_add _ (d1 mod 64 * 64) 12); [|lia| |]; change (2 ^ 12) with 4096.
  2,3: Z.div_mod_to_equations; lia.
  apply (lor_add _ _ 6); [lia| |]; change (2 ^ 6) with 64.
  - Z.div_mod_to_equations. lia.
  - apply Z.mod_pos_bound. lia.
Qed.

(** A property of bytes that a boolean test decides holds of all of them
    once the test passes on the 256 values. *)
Lemma forall_byte (f : Z → bool) :
  forallb f (Z.of_nat <$> seq 0 256) = true →
  ∀ b, 0 ≤ b < 256 → f b = true.
Proof.
  intros Hall b Hb. rewrite forallb_forall in Hall. apply Hall.
  apply in_map_iff. exists (Z.to_nat b). split; [lia|].
  apply in_seq. lia.
Qed.

(** Bit 7 of a [char] read from memory is set exactly for the bit
    patterns from 128 on, whichever the signedness. *)
Lemma high_bit_test (abi : char_abi) (b : Z) :
  0 ≤ b < 256 → (Z.land (char_value abi b) 0x80 =? 0) = (b <? 128).
Proof.
  intros Hb.
  apply (forall_byte
           (λ b, bool_decide ((Z.land (char_value abi b) 0x80 =? 0) = (b <? 128))))
    in Hb; [by apply bool_decide_eq_true in Hb|].
  destruct abi; vm_compute; reflexivity.
Qed.

(** ** The bytes of a codepoint *)

Lemma utf8_bytes_1 (c : Z) : 0 ≤ c ≤ 0x7f → utf8_bytes c = [c].
Proof.
  intros Hc. unfold utf8_bytes.
  assert ((c <=? 0x7f) = true) as -> by (apply Z.leb_le; lia).
  rewrite to_char_small by lia. reflexivity.
Qed.

Lemma utf8_bytes_2 (c : Z) :
  0x7f < c ≤ 0x7ff → utf8_bytes c = [192 + c / 64; 128 + c mod 64].
Proof.
  intros Hc. unfold utf8_bytes.
  assert ((c <=? 0x7f) = false) as -> by (apply Z.leb_gt; lia).
  assert ((c <=? 0x7ff) = true) as -> by (apply Z.leb_le; lia).
  rewrite lead_byte_2, continuation_byte by lia.
  rewrite !to_char_small by (Z.div_mod_to_equations; lia). reflexivity.
Qed.

Lemma utf8_bytes_3 (c : Z) :
  0x7ff < c ≤ 0xffff →
  utf8_bytes c = [224 + c / 4096; 128 + c / 64 mod 64; 128 + c mod 64].
Proof.
  intros Hc. unfold utf8_bytes.
  assert ((c <=? 0x7f) = false) as -> by (apply Z.leb_gt; lia).
  assert ((c <=? 0x7ff) = false) as -> by (apply Z.leb_gt; lia).
  assert ((c <=? 0xffff) = true) as -> by (apply Z.leb_le; lia).
  rewrite lead_byte_3, !continuation_byte, Z.shiftr_div_pow2 by lia.
  change (2 ^ 6) with 64.
  rewrite !to_char_small by (Z.div_mod_to_equations; lia). reflexivity.
Qed.

Lemma utf8_bytes_4 (c : Z) :
  0xffff < c ≤ 0x1fffff →
  utf8_bytes c = [240 + c / 262144; 128 + c / 4096 mod 64;
                  128 + c / 64 mod 64; 128 + c mod 64].
Proof.
  intros Hc. unfold utf8_bytes.
  assert ((c <=? 0x7f) = false) as -> by (apply Z.leb_gt; lia).
  assert ((c <=? 0x7ff) = false) as -> by (apply Z.leb_gt; lia).
  assert ((c <=? 0xffff) = false) as -> by (apply Z.leb_gt; lia).
  rewrite lead_byte_4, !continuation_byte, !Z.shiftr_div_pow2 by lia.
  change (2 ^ 6) with 64. change (2 ^ 12) with 4096.
  rewrite !to_char_small by (Z.div_mod_to_equations; lia). reflexivity.
Qed.

(** ** Reading a well-formed string *)

Lemma repr_deref (m : mem) (self : TSString) (bs : list Z) :
  repr m self bs →
  ∃ d rest, ts_string_data self = Some d
            ∧ deref self m d = Some ((Byte <$> bs) ++ rest)
            ∧ Z.of_nat (length bs) < 2 ^ 32.
Proof.
  intros [rest Hc Hl Hsz|p cap rest Hc Hb Hl Hgt Hsz Hcap];
    unfold ts_string_data, SMALL_LEN in *.
  - assert ((12 <? s_length self) = false) as -> by (apply Z.ltb_ge; lia).
    exists SmallArray, rest. simpl. unfold content_small. rewrite Hc.
    split; [done|]. split; [done|]. lia.
  - assert ((12 <? s_length self) = true) as -> by (apply Z.ltb_lt; lia).
    exists (HeapBlock p), rest. unfold content_large_data. rewrite Hc. simpl.
    split; [done|]. split; [done|]. lia.
Qed.

Lemma load_at (abi : char_abi) (m : mem) (self : TSString) (d : char_ptr)
    (pre mid post : list Z) (rest : list memval) (j b : Z) :
  deref self m d = Some ((Byte <$> (pre ++ mid ++ post)) ++ rest) →
  0 ≤ j →
  mid !! Z.to_nat j = Some b →
  load abi self m d (Z.of_nat (length pre) + j) = Some (char_value abi b).
Proof.
  intros Hd H0 Hj. unfold load. rewrite Hd. simpl.
  rewrite decide_True by lia.
  replace (Z.to_nat (Z.of_nat (length pre) + j))
    with (length pre + Z.to_nat j)%nat by lia.
  rewrite lookup_app_l.
  2:{ rewrite length_fmap, !length_app. apply lookup_lt_Some in Hj. lia. }
  rewrite list_lookup_fmap, lookup_app_r by lia.
  replace (length pre + Z.to_nat j - length pre)%nat with (Z.to_nat j) by lia.
  rewrite lookup_app_l by (by apply lookup_lt_Some in Hj).
  rewrite Hj. reflexivity.
Qed.

Lemma char_value_unsigned (b : Z) : char_value UnsignedChar b = b.
Proof. reflexivity. Qed.

Lemma char_value_signed (b : Z) :
  char_value SignedChar b = if 128 <=? b then b - 256 else b.
Proof. reflexivity. Qed.

(** One- and two-byte sequences decode to the codepoint that was pushed,
    whichever the signedness of [char]. *)
Lemma char_at_short (abi : char_abi) (m : mem) (self : TSString)
    (pre post : list Z) (c : Z) :
  repr m self (pre ++ utf8_bytes c ++ post) →
  0 ≤ c ≤ 0x7ff →
  ts_string_char abi self (Z.of_nat (length pre)) m
  = Some (c, Z.of_nat (length pre) + utf8_len c).
Proof.
  intros Hr Hc.
  destruct (repr_deref _ _ _ Hr) as (d & rest & Hd & Hderef & Hmax).
  pose proof (repr_length _ _ _ Hr) as Hlen.
  pose proof (utf8_len_range c) as Hu.
  rewrite !length_app, !Nat2Z.inj_add, utf8_bytes_length in Hlen, Hmax.
  unfold ts_string_char. rewrite Hd. simpl mbind.
  assert ((s_length self <=? Z.of_nat (length pre)) = false) as ->
    by (apply Z.leb_gt; lia).
  rewrite (u32_small (Z.of_nat (length pre) + 1)) by lia.
  destruct (decide (c ≤ 0x7f)) as [H1|H1].
  - rewrite utf8_bytes_1 in Hderef by lia.
    replace (Z.of_nat (length pre)) with (Z.of_nat (length pre) + 0) at 1 by lia.
    rewrite (load_at abi _ _ _ _ _ _ _ 0 _ Hderef (Z.le_refl 0) eq_refl).
    simpl mbind.
    rewrite high_bit_test by lia.
    assert (char_value abi c = c) as ->
      by (destruct abi; simpl; [|done]; by cmp_by_lia).
    unfold utf8_len. by cmp_by_lia.
  - rewrite utf8_bytes_2 in Hderef by lia.
    replace (Z.of_nat (length pre)) with (Z.of_nat (length pre) + 0) at 1 by lia.
    rewrite (load_at abi _ _ _ _ _ _ _ 0 _ Hderef (Z.le_refl 0) eq_refl).
    simpl mbind.
    rewrite high_bit_test by (Z.div_mod_to_equations; lia).
    rewrite (load_at abi _ _ _ _ _ _ _ 1 _ Hderef Z.le_0_1 eq_refl).
    assert (utf8_len c = 2) as Hu2 by (unfold utf8_len; by cmp_by_lia).
    rewrite Hu2 in *.
    destruct abi; rewrite ?char_value_signed, ?char_value_unsigned;
      cmp_by_lia; cbn [negb mbind option_bind];
      rewrite decode_2, u32_small by lia; do 2 f_equal;
      Z.div_mod_to_equations; lia.
Qed.

(** Where plain [char] is unsigned, three- and four-byte sequences decode
    to the codepoint that was pushed as well. *)
Lemma char_at_long_unsigned (m : mem) (self : TSString)
    (pre post : list Z) (c : Z) :
  repr m self (pre ++ utf8_bytes c ++ post) →
  0x7ff < c ≤ 0x1fffff →
  ts_string_char UnsignedChar self (Z.of_nat (length pre)) m
  = Some (c, Z.of_nat (length pre) + utf8_len c).
Proof.
  intros Hr Hc.
  destruct (repr_deref _ _ _ Hr) as (d & rest & Hd & Hderef & Hmax).
  pose proof (repr_length _ _ _ Hr) as Hlen.
  rewrite !length_app, !Nat2Z.inj_add, utf8_bytes_length in Hlen, Hmax.
  unfold ts_string_char. rewrite Hd. simpl mbind.
  pose proof (utf8_len_range c) as Hu.
  assert ((s_length self <=? Z.of_nat (length pre)) = false) as ->
    by (apply Z.leb_gt; lia).
  replace (Z.of_nat (length pre)) with (Z.of_nat (length pre) + 0) at 1 by lia.
  destruct (decide (c ≤ 0xffff)) as [H3|H3].
  - assert (utf8_len c = 3) as Hu3 by (unfold utf8_len; by cmp_by_lia).
    rewrite Hu3 in *. rewrite utf8_bytes_3 in Hderef by lia.
    rewrite (load_at _ _ _ _ _ _ _ _ 0 _ Hderef (Z.le_refl 0) eq_refl).
    cbn [mbind option_bind].
    rewrite (high_bit_test UnsignedChar) by (Z.div_mod_to_equations; lia).
    rewrite !char_value_unsigned. cmp_by_lia. cbn [negb].
    rewrite (u32_small (Z.of_nat (length pre) + 1)) by lia.
    rewrite !u32_small by lia.
    rewrite <- !Z.add_assoc. simpl (1 + _).
    rewrite (load_at _ _ _ _ _ _ _ _ 1 _ Hderef ltac:(lia) eq_refl).
    rewrite (load_at _ _ _ _ _ _ _ _ 2 _ Hderef ltac:(lia) eq_refl).
    rewrite !char_value_unsigned. cbn [mbind option_bind].
    rewrite decode_3. unfold u16.
    do 2 f_equal. change (2 ^ 16) with 65536. Z.div_mod_to_equations. lia.
  - assert (utf8_len c = 4) as Hu4 by (unfold utf8_len; by cmp_by_lia).
    rewrite Hu4 in *. rewrite utf8_bytes_4 in Hderef by lia.
    rewrite (load_at _ _ _ _ _ _ _ _ 0 _ Hderef (Z.le_refl 0) eq_refl).
    cbn [mbind option_bind].
    rewrite (high_bit_test UnsignedChar) by (Z.div_mod_to_equations; lia).
    rewrite !char_value_unsigned. cmp_by_lia. cbn [negb].
    rewrite (u32_small (Z.of_nat (length pre) + 1)) by lia.
    rewrite !u32_small by lia.
    rewrite <- !Z.add_assoc. simpl (1 + _).
    rewrite (load_at _ _ _ _ _ _ _ _ 1 _ Hderef ltac:(lia) eq_refl).
    rewrite (load_at _ _ _ _ _ _ _ _ 2 _ Hderef ltac:(lia) eq_refl).
    rewrite (load_at _ _ _ _ _ _ _ _ 3 _ Hderef ltac:(lia) eq_refl).
    rewrite !char_value_unsigned. cbn [mbind option_bind].
    rewrite decode_4.
    do 2 f_equal. Z.div_mod_to_equations. lia.
Qed.

(** Where plain [char] is signed, the lead byte of a three- or four-byte
    sequence is read as a negative [int]; it passes the test [c < 0xe0], so
    the sequence is decoded as if it had two bytes. *)
Lemma char_at_long_signed (m : mem) (self : TSString)
    (pre post : list Z) (c : Z) :
  repr m self (pre ++ utf8_bytes c ++ post) →
  0x7ff < c ≤ 0x1fffff →
  ts_string_char SignedChar self (Z.of_nat (length pre)) m
  = Some (if c <=? 0xffff then c / 64 else 1024 + c / 4096,
          Z.of_nat (length pre) + 2).
Proof.
  intros Hr Hc.
  destruct (repr_deref _ _ _ Hr) as (d & rest & Hd & Hderef & Hmax).
  pose proof (repr_length _ _ _ Hr) as Hlen.
  rewrite !length_app, !Nat2Z.inj_add, utf8_bytes_length in Hlen, Hmax.
  unfold ts_string_char. rewrite Hd. simpl mbind.
  pose proof (utf8_len_range c) as Hu.
  assert ((s_length self <=? Z.of_nat (length pre)) = false) as ->
    by (apply Z.leb_gt; lia).
  replace (Z.of_nat (length pre)) with (Z.of_nat (length pre) + 0) at 1 by lia.
  destruct (decide (c ≤ 0xffff)) as [H3|H3].
  - assert (utf8_len c = 3) as Hu3 by (unfold utf8_len; by cmp_by_lia).
    rewrite Hu3 in *. rewrite utf8_bytes_3 in Hderef by lia.
    rewrite (load_at _ _ _ _ _ _ _ _ 0 _ Hderef (Z.le_refl 0) eq_refl).
    cbn [mbind option_bind].
    rewrite (high_bit_test SignedChar) by (Z.div_mod_to_equations; lia).
    rewrite !char_value_signed. cmp_by_lia. cbn [negb].
    rewrite (u32_small (Z.of_nat (length pre) + 1)) by lia.
    rewrite !u32_small by lia.
    rewrite (load_at _ _ _ _ _ _ _ _ 1 _ Hderef ltac:(lia) eq_refl).
    rewrite !char_value_signed. cmp_by_lia. cbn [mbind option_bind].
    rewrite decode_2.
    do 2 f_equal; Z.div_mod_to_equations; lia.
  - assert (utf8_len c = 4) as Hu4 by (unfold utf8_len; by cmp_by_lia).
    rewrite Hu4 in *. rewrite utf8_bytes_4 in Hderef by lia.
    rewrite (load_at _ _ _ _ _ _ _ _ 0 _ Hderef (Z.le_refl 0) eq_refl).
    cbn [mbind option_bind].
    rewrite (high_bit_test SignedChar) by (Z.div_mod_to_equations; lia).
    rewrite !char_value_signed. cmp_by_lia. cbn [negb].
    rewrite (u32_small (Z.of_nat (length pre) + 1)) by lia.
    rewrite !u32_small by lia.
    rewrite (load_at _ _ _ _ _ _ _ _ 1 _ Hderef ltac:(lia) eq_refl).
    rewrite !char_value_signed. cmp_by_lia. cbn [mbind option_bind].
    rewrite decode_2.
    do 2 f_equal; Z.div_mod_to_equations; lia.
Qed.

Lemma new_repr (m : mem) : repr m ts_string_new [].
Proof. by eapply (repr_small m ts_string_new [] (replicate 12 (Byte 0))). Qed.

(** ** [ts_string_from] *)

(** A copy of the first [length] bytes of an array is well formed: inline
    up to [SMALL_LEN] bytes, and beyond that in a block of exactly [length]
    cells. *)
Lemma from_repr (content : list Z) (length : Z) (m : mem) :
  0 ≤ length < 2 ^ 32 →
  length ≤ Z.of_nat (List.length content) →
  ∃ self m', ts_string_from content length m = Some (self, m')
             ∧ repr m' self (take (Z.to_nat length) content)
             ∧ is_inline self = bool_decide (length ≤ SMALL_LEN).
Proof.
  intros Hrange Hlen. unfold ts_string_from, SMALL_LEN.
  assert (Htake : List.length (take (Z.to_nat length) content) = Z.to_nat length)
    by (rewrite length_take; lia).
  destruct (12 <? length) eqn:Hbig.
  - apply Z.ltb_lt in Hbig. unfold malloc, memcpy. simpl.
    rewrite lookup_insert_eq. simpl.
    rewrite decide_True by (rewrite length_fmap, length_replicate; lia).
    rewrite insert_insert_eq, drop_replicate, Nat.sub_diag, <- fmap_take.
    eexists _, _. split; [reflexivity|]. split.
    + eapply repr_large; simpl;
        [reflexivity|apply lookup_insert_eq|lia|unfold SMALL_LEN; lia| |lia].
      simpl. lia.
    + symmetry. apply bool_decide_eq_false. lia.
  - apply Z.ltb_ge in Hbig. rewrite decide_True by lia.
    rewrite <- fmap_take.
    eexists _, _. split; [reflexivity|]. split.
    + eapply repr_small; simpl; [reflexivity|lia|].
      rewrite length_replicate. unfold SMALL_LEN. lia.
    + symmetry. apply bool_decide_eq_true. lia.
Qed.

(** ** Comparison *)

Lemma read_bytes_prefix (bs : list Z) (rest : list memval) :
  read_bytes ((Byte <$> bs) ++ rest) (Z.of_nat (length bs)) = Some bs.
Proof.
  unfold read_bytes. rewrite Nat2Z.id.
  rewrite decide_True by (rewrite length_app, length_fmap; lia).
  rewrite take_app_length' by (by rewrite length_fmap).
  by apply mapM_fmap_Some.
Qed.

Lemma bytes_cmp_eq (xs ys : list Z) :
  length xs = length ys → (bytes_cmp xs ys =? 0) = bool_decide (xs = ys).
Proof.
  revert ys. induction xs as [|x xs IH]; intros [|y ys] Hlen;
    simpl in *; try done.
  destruct (x <? y) eqn:Hxy; [|destruct (y <? x) eqn:Hyx].
  - symmetry. apply bool_decide_eq_false. intros [= -> _]. lia.
  - symmetry. apply bool_decide_eq_false. intros [= -> _]. lia.
  - assert (x = y) as -> by lia. rewrite IH by lia.
    apply bool_decide_ext. split; [by intros ->|by intros [= ->]].
Qed.

Lemma eq_repr (m : mem) (self other : TSString) (bs bs' : list Z) :
  repr m self bs → repr m other bs' →
  ts_string_eq self other m = Some (bool_decide (bs = bs')).
Proof.
  intros Hs Ho. unfold ts_string_eq.
  pose proof (repr_length _ _ _ Hs) as Hl.
  pose proof (repr_length _ _ _ Ho) as Hl'.
  destruct (s_length self =? s_length other) eqn:Heq; simpl.
  2:{ f_equal. symmetry. apply bool_decide_eq_false. intros ->. lia. }
  assert (length bs = length bs') as Hlen by lia.
  destruct Hs as [rest Hc _ Hsz|p cap rest Hc Hb _ Hgt Hsz Hcap];
    destruct Ho as [rest' Hc' _ Hsz'|p' cap' rest' Hc' Hb' _ Hgt' Hsz' Hcap'];
    unfold SMALL_LEN in *; try lia.
  - assert ((12 <? s_length self) = false) as -> by (apply Z.ltb_ge; lia).
    unfold content_small, memcmp. rewrite Hc, Hc', Hl. simpl.
    rewrite read_bytes_prefix, Hlen, read_bytes_prefix. simpl.
    by rewrite bytes_cmp_eq.
  - assert ((12 <? s_length self) = true) as -> by (apply Z.ltb_lt; lia).
    unfold content_large_data, memcmp. rewrite Hc, Hc', Hl. simpl.
    rewrite Hb, Hb'. simpl.
    rewrite read_bytes_prefix, Hlen, read_bytes_prefix. simpl.
    by rewrite bytes_cmp_eq.
Qed.

Lemma repr_stored_bytes (m : mem) (self : TSString) (bs : list Z) :
  repr m self bs → stored_bytes self m = Some bs.
Proof.
  intros Hr. destruct (repr_deref _ _ _ Hr) as (d & rest & Hd & Hderef & _).
  unfold stored_bytes. rewrite Hd. simpl. rewrite Hderef. simpl.
  rewrite (repr_length _ _ _ Hr). apply read_bytes_prefix.
Qed.

Lemma repr_inj (m : mem) (self : TSString) (bs bs' : list Z) :
  repr m self bs → repr m self bs' → bs = bs'.
Proof.
  intros H1 H2. apply repr_stored_bytes in H1, H2. congruence.
Qed.

(** ** Release *)

Lemma delete_repr (m : mem) (self : TSString) (bs : list Z) :
  repr m self bs →
  ∃ m', ts_string_delete self m = Some (zeroed, m')
        ∧ match content self with
          | small _ => m' = m
          | large p _ => m' = Mem (delete p (blocks m)) (events m ++ [Free p])
          end.
Proof.
  intros [rest Hc Hl Hsz|p cap rest Hc Hb Hl Hgt Hsz Hcap];
    unfold ts_string_delete, SMALL_LEN in *; rewrite Hc.
  - assert ((12 <? s_length self) = false) as -> by (apply Z.ltb_ge; lia).
    by exists m.
  - assert ((12 <? s_length self) = true) as -> by (apply Z.ltb_lt; lia).
    unfold content_large_data, free. rewrite Hc. simpl. rewrite Hb. simpl.
    eauto.
Qed.

(** ** The lexer macros *)

Section MacroFacts.
Context {E : Type} `{LexerCallbacks E}.

Lemma exec_all_app (ops ops' : list macro) (st : TSLexer E * frame) :
  exec_all (ops ++ ops') st = exec_all ops' (exec_all ops st).
Proof. apply fold_left_app. Qed.

(** [result] is set by [ACCEPT_TOKEN] and by nothing else, and is never
    cleared. *)
Lemma exec_all_result (ops : list macro) (st : TSLexer E * frame) :
  result (exec_all ops st).2 = result st.2 || existsb is_accept ops.
Proof.
  revert st. induction ops as [|o ops IH]; intros st.
  { simpl. by rewrite orb_false_r. }
  change (exec_all (o :: ops) st) with (exec_all ops (exec st o)).
  rewrite IH. destruct st as [lexer fr], o; simpl;
    rewrite ?orb_false_r, ?orb_true_r; reflexivity.
Qed.

Section Contract.
(** What the engine remembers: the current position and the end that
    was last marked. *)
Variables position token_end : E → Z.
Hypothesis mark_end_marks :
  ∀ lexer, token_end (engine (mark_end lexer)) = position (engine lexer).
Hypothesis mark_end_symbol :
  ∀ lexer, result_symbol (mark_end lexer) = result_symbol lexer.
Hypothesis advance_end :
  ∀ lexer skip,
    token_end (engine (advance lexer skip)) = token_end (engine lexer).
Hypothesis advance_symbol :
  ∀ lexer skip, result_symbol (advance lexer skip) = result_symbol lexer.

Lemma accept_records (sym : Z) (st : TSLexer E * frame) :
  result_symbol (ACCEPT_TOKEN sym st).1 = u16 sym
  ∧ token_end (engine (ACCEPT_TOKEN sym st).1) = position (engine st.1).
Proof.
  destruct st as [lexer fr]. simpl.
  by rewrite mark_end_symbol, mark_end_marks.
Qed.

(** Without a further [ACCEPT_TOKEN], what was recorded stays. *)
Lemma exec_all_keeps (ops : list macro) (st : TSLexer E * frame) :
  existsb is_accept ops = false →
  result_symbol (exec_all ops st).1 = result_symbol st.1
  ∧ token_end (engine (exec_all ops st).1) = token_end (engine st.1).
Proof.
  revert st. induction ops as [|o ops IH]; intros st Hno; [done|].
  simpl in Hno. apply orb_false_elim in Hno as [Ho Hno].
  change (exec_all (o :: ops) st) with (exec_all ops (exec st o)).
  destruct (IH (exec st o) Hno) as [-> ->].
  destruct st as [lexer fr], o; simpl in *; try done;
    by rewrite advance_symbol, advance_end.
Qed.
End Contract.
End MacroFacts.

(** * The claims *)

(** ** Round trip of one codepoint *)

(** Where plain [char] is unsigned, every codepoint up to U+10FFFF,
    surrogates included, is read back as it was pushed. *)
Lemma roundtrip_unsigned (m : mem) (c : Z) :
  0 ≤ c ≤ 0x10FFFF → roundtrip UnsignedChar m c.
Proof.
  intros Hc. pose proof (utf8_len_range c) as Hu.
  destruct (push_repr m ts_string_new [] c (new_repr m)) as (self & m' & Hp & Hr);
    [simpl; lia|].
  exists self, m'. split; [done|].
  rewrite <- (app_nil_r (utf8_bytes c)) in Hr.
  destruct (decide (c ≤ 0x7ff)).
  - apply (char_at_short UnsignedChar m' self [] [] c Hr). lia.
  - apply (char_at_long_unsigned m' self [] [] c Hr). lia.
Qed.

(** Where plain [char] is signed, the codepoints up to U+07FF are. *)
Lemma roundtrip_signed_short (m : mem) (c : Z) :
  0 ≤ c ≤ 0x7ff → roundtrip SignedChar m c.
Proof.
  intros Hc. pose proof (utf8_len_range c) as Hu.
  destruct (push_repr m ts_string_new [] c (new_repr m)) as (self & m' & Hp & Hr);
    [simpl; lia|].
  exists self, m'. split; [done|].
  rewrite <- (app_nil_r (utf8_bytes c)) in Hr.
  apply (char_at_short SignedChar m' self [] [] c Hr). lia.
Qed.

(** Where plain [char] is signed, no codepoint from U+0800 on is: the
    reader returns a value below 0x800 and moves the index by two. *)
Lemma roundtrip_signed_long (m : mem) (c : Z) :
  0x7ff < c ≤ 0x10FFFF → ¬ roundtrip SignedChar m c.
Proof.
  intros Hc (self & m' & Hp & Hread).
  pose proof (utf8_len_range c) as Hu.
  assert (3 ≤ utf8_len c) as Hu3 by (unfold utf8_len; cmp_by_lia; case_match; lia).
  destruct (push_repr m ts_string_new [] c (new_repr m)) as (s1 & m1 & Hp1 & Hr);
    [simpl; lia|].
  rewrite Hp in Hp1. injection Hp1 as <- <-.
  rewrite <- (app_nil_r (utf8_bytes c)) in Hr.
  pose proof (char_at_long_signed m' self [] [] c Hr ltac:(lia)) as Hbad.
  change (Z.of_nat (length (@nil Z))) with 0 in Hbad.
  rewrite Hread in Hbad. injection Hbad as Hv Hix.
  lia.
Qed.

(** C1 (fails on the code where plain [char] is signed).  The claim is
    that every Unicode scalar value, pushed onto a fresh string and read at
    offset 0, comes back with the index moved on by its encoded length.
    U+4E2D is a scalar value; the push stores E4 B8 AD; [ts_string_char],
    with the lead byte read as a negative [int], returns 0x138 and moves the
    index to 2, so the round trip does not hold for it. *)
Theorem roundtrip_signed_char_U4E2D :
  scalar_value 0x4E2D
  ∧ (∃ self, ts_string_push ts_string_new 0x4E2D empty_mem
             = Some (self, empty_mem)
             ∧ stored_bytes self empty_mem = Some [0xE4; 0xB8; 0xAD]
             ∧ ts_string_char SignedChar self 0 empty_mem = Some (0x138, 2))
  ∧ ¬ roundtrip SignedChar empty_mem 0x4E2D.
Proof.
  split; [unfold scalar_value; lia|]. split.
  - exists (MkString (small ((Byte <$> [0xE4; 0xB8; 0xAD])
                             ++ replicate 9 (Byte 0))) 3).
    repeat apply conj; vm_compute; reflexivity.
  - apply roundtrip_signed_long. lia.
Qed.

(** ** What a push appends *)

(** C2.  A push on a well-formed string returns and appends one byte for
    [c <= 0x7F], two for [c <= 0x7FF], three for [c <= 0xFFFF] and four
    otherwise; for a codepoint above U+FFFF the four bytes are, in this
    order, [0xF0 | (c >> 18)], [0x80 | ((c >> 12) & 0x3F)],
    [0x80 | ((c >> 6) & 0x3F)] and [0x80 | (c & 0x3F)]. *)
Theorem push_appends_utf8 (m : mem) (self : TSString) (bs : list Z) (c : Z) :
  repr m self bs →
  Z.of_nat (length bs) + utf8_len c ≤ 2 ^ 31 →
  ∃ self' m' out,
    ts_string_push self c m = Some (self', m')
    ∧ repr m' self' (bs ++ out)
    ∧ stored_bytes self' m' = Some (bs ++ out)
    ∧ s_length self' = s_length self + Z.of_nat (length out)
    ∧ Z.of_nat (length out) = (if c <=? 0x7f then 1
                               else if c <=? 0x7ff then 2
                               else if c <=? 0xffff then 3
                               else 4)
    ∧ (0xffff < c ≤ 0x10ffff →
       out = [Z.lor 0xF0 (Z.shiftr c 18);
              Z.lor 0x80 (Z.land (Z.shiftr c 12) 0x3F);
              Z.lor 0x80 (Z.land (Z.shiftr c 6) 0x3F);
              Z.lor 0x80 (Z.land c 0x3F)]).
Proof.
  intros Hr Hmax.
  destruct (push_repr m self bs c Hr Hmax) as (self' & m' & Hp & Hr').
  exists self', m', (utf8_bytes c). split; [done|]. split; [done|].
  split; [by apply repr_stored_bytes|]. split; [|split].
  - rewrite (repr_length _ _ _ Hr), (repr_length _ _ _ Hr'), length_app. lia.
  - unfold utf8_bytes. repeat case_match; reflexivity.
  - intros Hc. rewrite utf8_bytes_4 by lia.
    rewrite (Z.lor_comm 0xF0), lead_byte_4 by lia.
    rewrite !(Z.lor_comm 0x80), !continuation_byte, !Z.shiftr_div_pow2 by lia.
    reflexivity.
Qed.

Lemma push_appends_utf8_witness :
  repr empty_mem ts_string_new []
  ∧ Z.of_nat (length (@nil Z)) + utf8_len 0x1F600 ≤ 2 ^ 31
  ∧ ∃ self' m' out,
      ts_string_push ts_string_new 0x1F600 empty_mem = Some (self', m')
      ∧ repr m' self' ([] ++ out)
      ∧ stored_bytes self' m' = Some ([] ++ out)
      ∧ s_length self' = s_length ts_string_new + Z.of_nat (length out)
      ∧ Z.of_nat (length out) = 4
      ∧ (0xffff < 0x1F600 ≤ 0x10ffff →
         out = [Z.lor 0xF0 (Z.shiftr 0x1F600 18);
                Z.lor 0x80 (Z.land (Z.shiftr 0x1F600 12) 0x3F);
                Z.lor 0x80 (Z.land (Z.shiftr 0x1F600 6) 0x3F);
                Z.lor 0x80 (Z.land 0x1F600 0x3F)]).
Proof.
  split; [apply new_repr|]. split; [by vm_compute|].
  apply (push_appends_utf8 empty_mem ts_string_new [] 0x1F600);
    [apply new_repr|by vm_compute].
Defined.

(** ** The worked example *)

(** Where plain [char] is unsigned, the example reads as the spec has it. *)
Lemma example_unsigned_char :
  ∃ self, push_all example_codepoints (ts_string_new, empty_mem)
          = Some (self, empty_mem)
    ∧ s_length self = 10
    ∧ ts_string_char UnsignedChar self 0 empty_mem = Some (0x41, 1)
    ∧ ts_string_char UnsignedChar self 1 empty_mem = Some (0xE9, 3)
    ∧ ts_string_char UnsignedChar self 3 empty_mem = Some (0x4E2D, 6)
    ∧ ts_string_char UnsignedChar self 6 empty_mem = Some (0x1F600, 10)
    ∧ ts_string_char UnsignedChar self 10 empty_mem = Some (-1, 10).
Proof.
  exists (MkString
            (small (Byte <$> [0x41; 0xC3; 0xA9; 0xE4; 0xB8; 0xAD;
                              0xF0; 0x9F; 0x98; 0x80; 0; 0]))
            10).
  repeat apply conj; vm_compute; reflexivity.
Qed.

(** C3 (fails on the code where plain [char] is signed).  The claim is
    that after pushing U+0041, U+00E9, U+4E2D and U+1F600 the length is 10,
    the reads at offsets 0, 1, 3 and 6 return the four codepoints and the
    read at offset 10 returns the end sentinel.  The length, the first two
    reads and the sentinel are as claimed; the read at offset 3 returns
    0x138 and the read at offset 6 returns 0x41F, each moving the index by
    two. *)
Theorem example_signed_char :
  ∃ self, push_all example_codepoints (ts_string_new, empty_mem)
          = Some (self, empty_mem)
    ∧ s_length self = 10
    ∧ ts_string_char SignedChar self 0 empty_mem = Some (0x41, 1)
    ∧ ts_string_char SignedChar self 1 empty_mem = Some (0xE9, 3)
    ∧ ts_string_char SignedChar self 3 empty_mem = Some (0x138, 5)
    ∧ ts_string_char SignedChar self 6 empty_mem = Some (0x41F, 8)
    ∧ ts_string_char SignedChar self 10 empty_mem = Some (-1, 10).
Proof.
  exists (MkString
            (small (Byte <$> [0x41; 0xC3; 0xA9; 0xE4; 0xB8; 0xAD;
                              0xF0; 0x9F; 0x98; 0x80; 0; 0]))
            10).
  repeat apply conj; vm_compute; reflexivity.
Qed.

(** ** Length *)

(** C7.  For a string built from [ts_string_new] by pushes alone, every
    push returns and [length] ends as the sum of the encoded lengths of the
    codepoints pushed (for sums up to 2 GiB, within which no [uint32_t]
    wraps). *)
Theorem push_all_length (cs : list Z) (m : mem) :
  total_len cs ≤ 2 ^ 31 →
  ∃ self m', push_all cs (ts_string_new, m) = Some (self, m')
             ∧ s_length self = total_len cs.
Proof.
  intros Hmax.
  destruct (push_all_repr cs m ts_string_new [] (new_repr m))
    as (self & m' & Hp & Hr); [simpl; lia|].
  exists self, m'. split; [done|].
  rewrite (repr_length _ _ _ Hr). apply utf8_string_length.
Qed.

Lemma push_all_length_witness :
  total_len [0x41; 0xE9; 0x4E2D; 0x1F600; 0x1F600] ≤ 2 ^ 31
  ∧ ∃ self m',
      push_all [0x41; 0xE9; 0x4E2D; 0x1F600; 0x1F600] (ts_string_new, empty_mem)
      = Some (self, m')
      ∧ s_length self = total_len [0x41; 0xE9; 0x4E2D; 0x1F600; 0x1F600].
Proof.
  split; [by vm_compute|].
  apply (push_all_length [0x41; 0xE9; 0x4E2D; 0x1F600; 0x1F600] empty_mem).
  by vm_compute.
Defined.

(** ** The end of the buffer *)

(** C9.  At an offset at or past [length], [ts_string_char] returns -1 and
    leaves the index as the caller set it. *)
Theorem char_past_end (abi : char_abi) (m : mem) (self : TSString)
    (bs : list Z) (i : Z) :
  repr m self bs → s_length self ≤ i →
  ts_string_char abi self i m = Some (-1, i).
Proof.
  intros Hr Hi. destruct (repr_deref m self bs Hr) as (d & rest & Hd & _).
  unfold ts_string_char. rewrite Hd. simpl.
  assert ((s_length self <=? i) = true) as -> by (apply Z.leb_le; lia).
  reflexivity.
Qed.

Lemma char_past_end_witness :
  repr empty_mem (MkString (small ((Byte <$> [0x41; 0xC3; 0xA9])
                                   ++ replicate 9 (Byte 0))) 3)
       [0x41; 0xC3; 0xA9]
  ∧ 3 ≤ 3
  ∧ ts_string_char SignedChar
      (MkString (small ((Byte <$> [0x41; 0xC3; 0xA9])
                        ++ replicate 9 (Byte 0))) 3)
      3 empty_mem
    = Some (-1, 3).
Proof.
  assert (Hr : repr empty_mem
                 (MkString (small ((Byte <$> [0x41; 0xC3; 0xA9])
                                   ++ replicate 9 (Byte 0))) 3)
                 [0x41; 0xC3; 0xA9])
    by (by eapply repr_small).
  split; [exact Hr|]. split; [lia|].
  apply (char_past_end SignedChar empty_mem _ [0x41; 0xC3; 0xA9] 3 Hr). simpl. lia.
Defined.

(** ** Inline storage and the move to the heap *)

(** C4.  A run of pushes from [ts_string_new] whose lengths sum to at most
    [SMALL_LEN] returns with the memory and its log untouched and the bytes
    in the inline array.  A next push that takes the sum past [SMALL_LEN]
    logs one call, a [malloc] of a block that was not live; the string then
    names that block, which starts with the bytes pushed before, followed by
    the new ones, and no other block changes.  Whatever is pushed after
    that (up to 2 GiB in all), the string stays on the heap, and the log
    grows by calls of [realloc] only. *)
Theorem inline_until_overflow (m : mem) (cs : list Z) :
  total_len cs ≤ SMALL_LEN →
  ∃ self,
    push_all cs (ts_string_new, m) = Some (self, m)
    ∧ is_inline self = true
    ∧ repr m self (utf8_string cs)
    ∧ ∀ c, SMALL_LEN < total_len (cs ++ [c]) →
        ∃ p self' m',
          ts_string_push self c m = Some (self', m')
          ∧ blocks m !! p = None
          ∧ events m' = events m ++ [Malloc p 24]
          ∧ content self' = large p 24
          ∧ repr m' self' (utf8_string cs ++ utf8_bytes c)
          ∧ (∀ q, q ≠ p → blocks m' !! q = blocks m !! q)
          ∧ ∀ ds, total_len (cs ++ c :: ds) ≤ 2 ^ 31 →
              ∃ self'' m'' evs,
                push_all ds (self', m') = Some (self'', m'')
                ∧ is_inline self'' = false
                ∧ SMALL_LEN < s_length self''
                ∧ repr m'' self'' (utf8_string (cs ++ c :: ds))
                ∧ events m'' = events m' ++ evs
                ∧ Forall (λ e, is_realloc e = true) evs.
Proof.
  intros Hfit.
  destruct (push_all_inline cs m ts_string_new [] (new_repr m))
    as (self & Hp & Hr & Hin); [simpl; lia|].
  simpl in Hr. exists self. do 3 (split; [done|]).
  intros c Hover. rewrite total_len_app in Hover. simpl in Hover.
  pose proof (utf8_string_length cs) as Hlen.
  destruct (push_spill_repr m self _ c Hr)
    as (p & self' & m' & Hp' & Hr' & Hc' & Hfresh & Hev & Hframe); [lia|].
  exists p, self', m'. do 6 (split; [done|]).
  intros ds Hmax. rewrite total_len_app in Hmax. simpl in Hmax.
  pose proof (utf8_bytes_length c) as Hlc.
  destruct (push_all_large ds m' self' _ Hr')
    as (self'' & m'' & Hp'' & Hr'' & Hin'' & evs & Hevs & Hall).
  { rewrite length_app. lia. }
  { rewrite length_app. lia. }
  rewrite <- app_assoc in Hr''.
  change (utf8_bytes c ++ utf8_string ds) with (utf8_string (c :: ds)) in Hr''.
  rewrite <- utf8_string_app in Hr''.
  exists self'', m'', evs. do 2 (split; [done|]). split; [|done].
  rewrite (repr_length _ _ _ Hr''), utf8_string_length, total_len_app.
  simpl. pose proof (total_len_nonneg ds). lia.
Qed.

Lemma inline_until_overflow_witness :
  total_len [0x4E2D; 0x4E2D; 0x4E2D; 0x4E2D] ≤ SMALL_LEN
  ∧ ∃ self,
      push_all [0x4E2D; 0x4E2D; 0x4E2D; 0x4E2D] (ts_string_new, empty_mem)
      = Some (self, empty_mem)
      ∧ is_inline self = true
      ∧ repr empty_mem self (utf8_string [0x4E2D; 0x4E2D; 0x4E2D; 0x4E2D])
      ∧ ∀ c, SMALL_LEN < total_len ([0x4E2D; 0x4E2D; 0x4E2D; 0x4E2D] ++ [c]) →
          ∃ p self' m',
            ts_string_push self c empty_mem = Some (self', m')
            ∧ blocks empty_mem !! p = None
            ∧ events m' = events empty_mem ++ [Malloc p 24]
            ∧ content self' = large p 24
            ∧ repr m' self'
                (utf8_string [0x4E2D; 0x4E2D; 0x4E2D; 0x4E2D] ++ utf8_bytes c)
            ∧ (∀ q, q ≠ p → blocks m' !! q = blocks empty_mem !! q)
            ∧ ∀ ds,
                total_len ([0x4E2D; 0x4E2D; 0x4E2D; 0x4E2D] ++ c :: ds) ≤ 2 ^ 31 →
                ∃ self'' m'' evs,
                  push_all ds (self', m') = Some (self'', m'')
                  ∧ is_inline self'' = false
                  ∧ SMALL_LEN < s_length self''
                  ∧ repr m'' self''
                      (utf8_string ([0x4E2D; 0x4E2D; 0x4E2D; 0x4E2D] ++ c :: ds))
                  ∧ events m'' = events m' ++ evs
                  ∧ Forall (λ e, is_realloc e = true) evs.
Proof.
  split; [by vm_compute|].
  apply (inline_until_overflow empty_mem [0x4E2D; 0x4E2D; 0x4E2D; 0x4E2D]).
  by vm_compute.
Defined.

(** The whole of it on a run that crosses the threshold and then doubles
    the block once. *)
Lemma overflow_example :
  ∃ self m,
    push_all [0x4E2D; 0x4E2D; 0x4E2D; 0x4E2D; 0x41;
              0x1F600; 0x1F600; 0x1F600] (ts_string_new, empty_mem)
    = Some (self, m)
    ∧ content self = large 2 48
    ∧ s_length self = 25
    ∧ events m = [Malloc 1 24; Realloc 1 2 48]
    ∧ stored_bytes self m
      = Some [0xE4; 0xB8; 0xAD; 0xE4; 0xB8; 0xAD; 0xE4; 0xB8; 0xAD;
              0xE4; 0xB8; 0xAD; 0x41; 0xF0; 0x9F; 0x98; 0x80;
              0xF0; 0x9F; 0x98; 0x80; 0xF0; 0x9F; 0x98; 0x80].
Proof.
  eexists (MkString (large 2 48) 25), _.
  split; [vm_compute; reflexivity|].
  repeat apply conj; vm_compute; reflexivity.
Qed.

(** ** Tentative results of the lexer *)

(** C6.  For every run from [START_LEXER] to [END_STATE], whatever the
    callbacks of the lexer do, the value returned is [true] exactly when the
    run went through [ACCEPT_TOKEN] at least once; a run without it returns
    [false]. *)
Theorem end_state_iff_accepted {E : Type} `{LexerCallbacks E}
    (lexer : TSLexer E) (state : Z) (ops : list macro) :
  ((run lexer state ops).1 = true ↔ ∃ sym, In (Accept sym) ops)
  ∧ ((∀ sym, ¬ In (Accept sym) ops) → (run lexer state ops).1 = false).
Proof.
  assert (Hrun : (run lexer state ops).1 = existsb is_accept ops).
  { unfold run, END_STATE. simpl. by rewrite exec_all_result. }
  assert (Hex : existsb is_accept ops = true ↔ ∃ sym, In (Accept sym) ops).
  { rewrite existsb_exists. split.
    - intros ([| |sym] & Hin & Hacc); try done. eauto.
    - intros (sym & Hin). by exists (Accept sym). }
  rewrite Hrun. split; [exact Hex|].
  intros Hnone. apply not_true_is_false. intros Hacc.
  apply Hex in Hacc as (sym & Hin). by apply (Hnone sym).
Qed.

Section LastAccept.
Context {E : Type} `{LexerCallbacks E}.
Variables position token_end : E → Z.
Hypothesis mark_end_marks :
  ∀ lexer, token_end (engine (mark_end lexer)) = position (engine lexer).
Hypothesis mark_end_symbol :
  ∀ lexer, result_symbol (mark_end lexer) = result_symbol lexer.
Hypothesis advance_end :
  ∀ lexer skip,
    token_end (engine (advance lexer skip)) = token_end (engine lexer).
Hypothesis advance_symbol :
  ∀ lexer skip, result_symbol (advance lexer skip) = result_symbol lexer.

(** C5.  Let the engine behind the lexer keep a position and a marked
    end, with [mark_end] copying the position to the mark and [advance]
    leaving the mark and the symbol alone.  In a run that goes through
    [ACCEPT_TOKEN(a)], later through [ACCEPT_TOKEN(b)] and then only through
    [ADVANCE] and [SKIP], [a] and [b] being [TSSymbol] values, scanning goes
    on after each accept: after the
    first the lexer holds [a] and the position of that moment as the mark;
    at [END_STATE] the run returns [true], the lexer holds [b], and the mark
    is the position at the second accept. *)
Theorem last_accept_wins (lexer : TSLexer E) (state : Z)
    (pre mid post : list macro) (a b : Z) :
  0 ≤ a < 2 ^ 16 → 0 ≤ b < 2 ^ 16 →
  existsb is_accept post = false →
  let at_a := exec_all pre (START_LEXER lexer state) in
  let after_a := exec_all (pre ++ [Accept a]) (START_LEXER lexer state) in
  let at_b := exec_all (pre ++ Accept a :: mid) (START_LEXER lexer state) in
  let r := run lexer state (pre ++ Accept a :: mid ++ Accept b :: post) in
  result_symbol after_a.1 = a
  ∧ token_end (engine after_a.1) = position (engine at_a.1)
  ∧ r.1 = true
  ∧ result_symbol r.2 = b
  ∧ token_end (engine r.2) = position (engine at_b.1).
Proof.
  intros Hsa Hsb Hpost at_a after_a at_b r.
  assert (Hua : u16 a = a) by (apply Z.mod_small, Hsa).
  assert (Hub : u16 b = b) by (apply Z.mod_small, Hsb).
  assert (Hr : r.2 = (exec_all post (ACCEPT_TOKEN b at_b)).1).
  { unfold r, run, at_b. simpl.
    replace (pre ++ Accept a :: mid ++ Accept b :: post)
      with ((pre ++ Accept a :: mid) ++ Accept b :: post)
      by (by rewrite <- app_assoc).
    by rewrite exec_all_app. }
  destruct (accept_records position token_end mark_end_marks mark_end_symbol
              a at_a) as [Ha1 Ha2].
  destruct (accept_records position token_end mark_end_marks mark_end_symbol
              b at_b) as [Hb1 Hb2].
  destruct (exec_all_keeps token_end advance_end advance_symbol post
              (ACCEPT_TOKEN b at_b) Hpost) as [Hk1 Hk2].
  unfold after_a. rewrite exec_all_app. fold at_a. simpl exec_all.
  rewrite Hua in Ha1. rewrite Hub in Hb1.
  split; [exact Ha1|]. split; [exact Ha2|]. split; [|split].
  - unfold r, run, END_STATE. cbn [fst snd].
    rewrite exec_all_result, existsb_app. cbn [existsb is_accept orb].
    by rewrite !orb_true_r.
  - by rewrite Hr, Hk1.
  - by rewrite Hr, Hk2.
Qed.
End LastAccept.

Lemma last_accept_wins_witness :
  (∀ lx : TSLexer cursor,
      token_end (engine (mark_end lx)) = position (engine lx))
  ∧ (∀ lx : TSLexer cursor, result_symbol (mark_end lx) = result_symbol lx)
  ∧ (∀ (lx : TSLexer cursor) sk,
        token_end (engine (advance lx sk)) = token_end (engine lx))
  ∧ (∀ (lx : TSLexer cursor) sk,
        result_symbol (advance lx sk) = result_symbol lx)
  ∧ 0 ≤ 7 < 2 ^ 16
  ∧ 0 ≤ 9 < 2 ^ 16
  ∧ existsb is_accept example_post = false
  ∧ result_symbol
      (exec_all (example_pre ++ [Accept 7]) (START_LEXER example_lexer 0)).1
    = 7
  ∧ token_end
      (engine (exec_all (example_pre ++ [Accept 7])
                 (START_LEXER example_lexer 0)).1)
    = position (engine (exec_all example_pre (START_LEXER example_lexer 0)).1)
  ∧ (run example_lexer 0
       (example_pre ++ Accept 7 :: example_mid ++ Accept 9 :: example_post)).1
    = true
  ∧ result_symbol
      (run example_lexer 0
         (example_pre ++ Accept 7 :: example_mid ++ Accept 9 :: example_post)).2
    = 9
  ∧ token_end
      (engine
         (run example_lexer 0
            (example_pre ++ Accept 7 :: example_mid
             ++ Accept 9 :: example_post)).2)
    = position
        (engine (exec_all (example_pre ++ Accept 7 :: example_mid)
                   (START_LEXER example_lexer 0)).1).
Proof.
  assert (H1 : ∀ lx : TSLexer cursor,
             token_end (engine (mark_end lx)) = position (engine lx))
    by reflexivity.
  assert (H2 : ∀ lx : TSLexer cursor,
             result_symbol (mark_end lx) = result_symbol lx)
    by reflexivity.
  assert (H3 : ∀ (lx : TSLexer cursor) sk,
             token_end (engine (advance lx sk)) = token_end (engine lx)).
  { intros [la sym [[|u rest] pos ts te]] sk; reflexivity. }
  assert (H4 : ∀ (lx : TSLexer cursor) sk,
             result_symbol (advance lx sk) = result_symbol lx).
  { intros [la sym [[|u rest] pos ts te]] sk; reflexivity. }
  assert (H7 : 0 ≤ 7 < 2 ^ 16) by (by vm_compute).
  assert (H9 : 0 ≤ 9 < 2 ^ 16) by (by vm_compute).
  do 6 (split; [assumption|]). split; [reflexivity|].
  exact (last_accept_wins position token_end H1 H2 H3 H4 example_lexer 0
           example_pre example_mid example_post 7 9 H7 H9 eq_refl).
Defined.

(** On the model of the engine, with input [" abc!"]: the mark ends at 3,
    the position of the second accept, the symbol is 9, and the skipped
    unit lies before the start of the token. *)
Lemma last_accept_example :
  run example_lexer 0
    (example_pre ++ Accept 7 :: example_mid ++ Accept 9 :: example_post)
  = (true, MkLexer 0x21 9 (MkCursor [0x21] 4 1 3)).
Proof. reflexivity. Qed.

(** ** Equality *)

Lemma example_large_repr : repr example_mem example_large example_bytes.
Proof.
  by eapply (repr_large example_mem example_large example_bytes
               1 24 (replicate 11 Undef)).
Qed.

Lemma example_large'_repr : repr example_mem example_large' example_bytes.
Proof.
  by eapply (repr_large example_mem example_large' example_bytes 2 13 []).
Qed.

(** C8.  On two well-formed strings [ts_string_eq] returns, and returns
    [true] exactly when the lengths are equal and the bytes held are the
    same, one by one.  The result is a function of the bytes held alone, so
    neither the storage in use nor the block, its capacity or what lies
    past [length] bears on it; a string equals itself, and the result does
    not depend on the order of the arguments. *)
Theorem eq_iff_same_bytes (m : mem) (self other : TSString)
    (bs bs' : list Z) :
  repr m self bs → repr m other bs' →
  ∃ r, ts_string_eq self other m = Some r
       ∧ (r = true ↔ s_length self = s_length other ∧ bs = bs')
       ∧ r = bool_decide (bs = bs')
       ∧ ts_string_eq self self m = Some true
       ∧ ts_string_eq other self m = Some r.
Proof.
  intros Hs Ho. exists (bool_decide (bs = bs')).
  split; [by apply eq_repr|]. split; [|split; [done|split]].
  - rewrite bool_decide_eq_true. split; [|by intros [_ ?]].
    intros ->. split; [|done].
    by rewrite (repr_length _ _ _ Hs), (repr_length _ _ _ Ho).
  - rewrite (eq_repr m self self bs bs Hs Hs). f_equal.
    by apply bool_decide_eq_true.
  - rewrite (eq_repr m other self bs' bs Ho Hs). f_equal.
    apply bool_decide_ext. split; by intros ->.
Qed.

Lemma eq_iff_same_bytes_witness :
  repr example_mem example_large example_bytes
  ∧ repr example_mem example_large' example_bytes
  ∧ ∃ r, ts_string_eq example_large example_large' example_mem = Some r
         ∧ (r = true ↔ s_length example_large = s_length example_large'
                       ∧ example_bytes = example_bytes)
         ∧ r = bool_decide (example_bytes = example_bytes)
         ∧ ts_string_eq example_large example_large example_mem = Some true
         ∧ ts_string_eq example_large' example_large example_mem = Some r.
Proof.
  split; [apply example_large_repr|]. split; [apply example_large'_repr|].
  apply (eq_iff_same_bytes example_mem example_large example_large'
           example_bytes example_bytes);
    [apply example_large_repr|apply example_large'_repr].
Defined.

(** ** Release *)

(** C10.  [ts_string_delete] on a well-formed string, inline or on the
    heap, leaves the all-zero object that [ts_string_new] returns; it logs
    one [free], of the block of a heap string, and nothing for an inline
    one.  A second [ts_string_delete] returns the same object with the
    memory and its log as the first call left them. *)
Theorem delete_gives_new (m : mem) (self : TSString) (bs : list Z) :
  repr m self bs →
  ∃ m', ts_string_delete self m = Some (ts_string_new, m')
        ∧ ts_string_delete ts_string_new m' = Some (ts_string_new, m')
        ∧ ts_string_eq ts_string_new ts_string_new m' = Some true
        ∧ match content self with
          | small _ => m' = m
          | large p _ =>
              blocks m' = delete p (blocks m)
              ∧ events m' = events m ++ [Free p]
          end.
Proof.
  intros Hr. destruct (delete_repr m self bs Hr) as (m' & Hd & Hm).
  exists m'. split; [exact Hd|]. split; [reflexivity|].
  split; [reflexivity|]. destruct (content self); [done|by subst m'].
Qed.

Lemma delete_gives_new_witness :
  repr example_mem example_large example_bytes
  ∧ ∃ m', ts_string_delete example_large example_mem = Some (ts_string_new, m')
          ∧ ts_string_delete ts_string_new m' = Some (ts_string_new, m')
          ∧ ts_string_eq ts_string_new ts_string_new m' = Some true
          ∧ blocks m' = delete 1%positive (blocks example_mem)
          ∧ events m' = events example_mem ++ [Free 1].
Proof.
  split; [apply example_large_repr|].
  apply (delete_gives_new example_mem example_large example_bytes).
  apply example_large_repr.
Defined.

(** * Further properties *)

(** ** The four ways of a push *)

(** A push on a heap string in detail: with room it stores in the block;
    without, it calls [realloc] once, for twice the capacity. *)
Lemma push_large_detail (m : mem) (self : TSString) (bs : list Z) (c : Z)
    (p : positive) (cap : Z) :
  repr m self bs →
  content self = large p cap →
  Z.of_nat (length bs) + utf8_len c ≤ 2 ^ 31 →
  ∃ self' m' blk,
    ts_string_push self c m = Some (self', m')
    ∧ repr m' self' (bs ++ utf8_bytes c)
    ∧ ((Z.of_nat (length bs) + utf8_len c ≤ cap
        ∧ content self' = large p cap
        ∧ blocks m' = <[p := blk]> (blocks m)
        ∧ events m' = events m)
       ∨ (cap < Z.of_nat (length bs) + utf8_len c
          ∧ ∃ q, content self' = large q (cap * 2)
                 ∧ blocks m !! q = None
                 ∧ blocks m' = <[q := blk]> (delete p (blocks m))
                 ∧ events m' = events m ++ [Realloc p q (cap * 2)])).
Proof.
  pose proof (utf8_len_range c) as Hu.
  intros Hr Hcont Hmax.
  destruct Hr as [rest Hc Hl Hsz|p' cap' rest Hc Hb Hl Hgt Hsz Hcap];
    [congruence|].
  rewrite Hcont in Hc. injection Hc as <- <-.
  unfold SMALL_LEN in Hgt. rewrite Nat2Z.inj_add in Hsz.
  unfold ts_string_push, ts_string_data, SMALL_LEN,
    content_large_capacity, content_large_data.
  assert ((12 <? s_length self) = true) as -> by (apply Z.ltb_lt; lia).
  rewrite Hcont. simpl. rewrite u32_small by lia.
  destruct (cap <? s_length self + utf8_len c) eqn:Hgrow.
  - apply Z.ltb_lt in Hgrow.
    assert ((12 <? cap) = true) as -> by (apply Z.ltb_lt; lia).
    unfold realloc. rewrite Hb. simpl.
    set (q := fresh (dom (blocks m))).
    assert (Hq : blocks m !! q = None) by apply not_elem_of_dom, is_fresh.
    rewrite u32_small by lia.
    replace (Z.to_nat (cap * 2))
      with (length ((Byte <$> bs) ++ rest) + Z.to_nat cap)%nat
      by (rewrite length_app, length_fmap; lia).
    rewrite resize_add_eq, <- app_assoc by reflexivity.
    rewrite (store_utf8_put (HeapBlock q) c _ bs
               (rest ++ replicate (Z.to_nat cap) Undef)); simpl;
      [|apply lookup_insert_eq|done
       |rewrite length_app, length_replicate; lia|lia].
    rewrite insert_insert_eq. eexists _, _, _. split; [reflexivity|].
    split.
    + eapply repr_large; simpl;
        [reflexivity|apply lookup_insert_eq| | | |lia].
      * rewrite length_app, Nat2Z.inj_add, utf8_bytes_length. lia.
      * unfold SMALL_LEN. lia.
      * rewrite !length_app, length_drop, length_app, length_replicate.
        pose proof (utf8_bytes_length c). lia.
    + right. split; [lia|]. exists q. simpl. done.
  - apply Z.ltb_ge in Hgrow. simpl.
    rewrite (store_utf8_put (HeapBlock p) c _ bs rest); simpl;
      [|done|done|lia|lia].
    eexists _, _, _. split; [reflexivity|]. split.
    + eapply repr_large; simpl;
        [exact Hcont|apply lookup_insert_eq| | | |exact Hcap].
      * rewrite length_app, Nat2Z.inj_add, utf8_bytes_length. lia.
      * unfold SMALL_LEN. lia.
      * rewrite !length_app, length_drop.
        pose proof (utf8_bytes_length c). lia.
    + left. simpl. split; [lia|done].
Qed.

(** Every push is one of four: it stays inline and leaves the memory as it
    was; it moves an inline string to a new block of 24 cells; it stores in
    the block of a heap string; or it moves that block to a new one of
    twice the capacity. *)
Lemma push_effect (m : mem) (self : TSString) (bs : list Z) (c : Z) :
  repr m self bs →
  Z.of_nat (length bs) + utf8_len c ≤ 2 ^ 31 →
  ∃ self' m',
    ts_string_push self c m = Some (self', m')
    ∧ repr m' self' (bs ++ utf8_bytes c)
    ∧ ((is_inline self = true ∧ is_inline self' = true ∧ m' = m)
       ∨ (∃ p blk, is_inline self = true
                   ∧ content self' = large p 24
                   ∧ blocks m !! p = None
                   ∧ blocks m' = <[p := blk]> (blocks m)
                   ∧ events m' = events m ++ [Malloc p 24])
       ∨ (∃ p cap blk, content self = large p cap
                       ∧ content self' = large p cap
                       ∧ Z.of_nat (length bs) + utf8_len c ≤ cap
                       ∧ blocks m' = <[p := blk]> (blocks m)
                       ∧ events m' = events m)
       ∨ (∃ p q cap blk, content self = large p cap
                         ∧ content self' = large q (cap * 2)
                         ∧ cap < Z.of_nat (length bs) + utf8_len c
                         ∧ blocks m !! q = None
                         ∧ blocks m' = <[q := blk]> (delete p (blocks m))
                         ∧ events m' = events m ++ [Realloc p q (cap * 2)])).
Proof.
  intros Hr Hmax.
  pose proof (repr_inline _ _ _ Hr) as Hin.
  pose proof (repr_length _ _ _ Hr) as Hl.
  destruct (decide (Z.of_nat (length bs) + utf8_len c ≤ SMALL_LEN)) as [Hfit|Hfit].
  { destruct (push_inline m self bs c Hr Hfit) as (self' & Hp & Hr' & Hi).
    exists self', m. do 2 (split; [done|]). left. split; [|done].
    rewrite Hin. apply bool_decide_eq_true. pose proof (utf8_len_range c). lia. }
  destruct (decide (Z.of_nat (length bs) ≤ SMALL_LEN)) as [Hsm|Hsm].
  { destruct (push_spill_repr m self bs c Hr)
      as (p & self' & m' & Hp & Hr' & Hc & Hfr & Hev & _); [lia|].
    pose proof (push_spill m self bs c Hr ltac:(lia)) as Hexact.
    simpl in Hexact. rewrite Hp in Hexact. injection Hexact as Hs Hm.
    exists self', m'. do 2 (split; [done|]). right. left.
    eexists p, _. split; [rewrite Hin; apply bool_decide_eq_true; lia|].
    split; [done|]. split; [done|]. split; [|done].
    rewrite Hs in Hc. injection Hc as Hpp. rewrite Hm, <- Hpp. reflexivity. }
  destruct (content self) as [cells|p cap] eqn:Hcont.
  { exfalso. unfold is_inline in Hin. rewrite Hcont in Hin.
    symmetry in Hin. apply bool_decide_eq_true in Hin. lia. }
  destruct (push_large_detail m self bs c p cap Hr Hcont Hmax)
    as (self' & m' & blk & Hp & Hr' & [(Hle & Hc & Hb & He)|(Hlt & q & Hc & Hq & Hb & He)]).
  - exists self', m'. do 2 (split; [done|]). right. right. left.
    exists p, cap, blk. done.
  - exists self', m'. do 2 (split; [done|]). right. right. right.
    exists p, q, cap, blk. done.
Qed.

(** ** Ownership of the heap block *)

Lemma new_owns (m : mem) : owns m m ts_string_new.
Proof. reflexivity. Qed.

Lemma push_owns (m0 m : mem) (self : TSString) (bs : list Z) (c : Z) :
  repr m self bs →
  owns m0 m self →
  Z.of_nat (length bs) + utf8_len c ≤ 2 ^ 31 →
  ∃ self' m', ts_string_push self c m = Some (self', m')
              ∧ repr m' self' (bs ++ utf8_bytes c)
              ∧ owns m0 m' self'.
Proof.
  intros Hr Ho Hmax.
  destruct (push_effect m self bs c Hr Hmax)
    as (self' & m' & Hp & Hr' & Hcase).
  exists self', m'. do 2 (split; [done|]).
  unfold owns, is_inline in *.
  destruct Hcase as [(Hi & Hi' & ->)
    |[(p & blk & Hi & Hc & Hfr & Hb & _)
    |[(p & cap & blk & Hc & Hc' & _ & Hb & _)
    |(p & q & cap & blk & Hc & Hc' & _ & Hq & Hb & _)]]].
  - destruct (content self), (content self'); done.
  - rewrite Hc. destruct (content self); [|done].
    rewrite Ho in Hfr, Hb. eauto.
  - rewrite Hc in Ho. rewrite Hc'. destruct Ho as (Hnone & b0 & Hm).
    split; [done|]. exists blk. by rewrite Hb, Hm, insert_insert_eq.
  - rewrite Hc in Ho. rewrite Hc'. destruct Ho as (Hnone & b0 & Hm).
    rewrite Hm in Hq, Hb.
    assert (q ≠ p) by (intros ->; by rewrite lookup_insert_eq in Hq).
    rewrite lookup_insert_ne in Hq by done.
    split; [done|]. exists blk.
    by rewrite Hb, delete_insert_eq, delete_id.
Qed.

Lemma push_all_owns (cs : list Z) (m0 m : mem) (self : TSString)
    (bs : list Z) :
  repr m self bs →
  owns m0 m self →
  Z.of_nat (length bs) + total_len cs ≤ 2 ^ 31 →
  ∃ self' m', push_all cs (self, m) = Some (self', m')
              ∧ repr m' self' (bs ++ utf8_string cs)
              ∧ owns m0 m' self'.
Proof.
  revert m self bs.
  induction cs as [|c cs IH]; intros m self bs Hr Ho Hmax; simpl in *.
  { rewrite app_nil_r. eauto. }
  pose proof (total_len_nonneg cs) as Hnn.
  destruct (push_owns m0 m self bs c Hr Ho) as (s1 & m1 & Hp & Hr1 & Ho1); [lia|].
  rewrite Hp. simpl.
  destruct (IH m1 s1 _ Hr1 Ho1) as (s2 & m2 & Hq & Hr2 & Ho2).
  { rewrite length_app, Nat2Z.inj_add, utf8_bytes_length. lia. }
  rewrite <- app_assoc in Hr2. eauto.
Qed.

Lemma delete_owned (m0 m : mem) (self : TSString) (bs : list Z) :
  repr m self bs →
  owns m0 m self →
  ∃ m', ts_string_delete self m = Some (ts_string_new, m')
        ∧ blocks m' = blocks m0.
Proof.
  intros Hr Ho. destruct (delete_repr m self bs Hr) as (m' & Hd & Hm).
  exists m'. split; [exact Hd|]. unfold owns in Ho.
  destruct (content self) as [cells|p cap].
  - by subst m'.
  - destruct Ho as (Hnone & blk & Hb). subst m'. simpl.
    by rewrite Hb, delete_insert_eq, delete_id.
Qed.

(** ** No block is left behind *)

(** X3.  Whatever is pushed onto a fresh string (up to 2 GiB), every push
    returns, and [ts_string_delete] afterwards returns too and leaves the
    heap with exactly the blocks it had before the first push: the block
    of the string is released and no other block is touched. *)
Theorem push_all_then_delete (cs : list Z) (m : mem) :
  total_len cs ≤ 2 ^ 31 →
  ∃ self m' m'',
    push_all cs (ts_string_new, m) = Some (self, m')
    ∧ ts_string_delete self m' = Some (ts_string_new, m'')
    ∧ blocks m'' = blocks m.
Proof.
  intros Hmax.
  destruct (push_all_owns cs m m ts_string_new [] (new_repr m) (new_owns m))
    as (self & m' & Hp & Hr & Ho); [simpl; lia|].
  destruct (delete_owned m m' self _ Hr Ho) as (m'' & Hd & Hb).
  by exists self, m', m''.
Qed.

Lemma push_all_then_delete_witness :
  total_len example_long ≤ 2 ^ 31
  ∧ ∃ self m' m'',
      push_all example_long (ts_string_new, example_mem) = Some (self, m')
      ∧ ts_string_delete self m' = Some (ts_string_new, m'')
      ∧ blocks m'' = blocks example_mem.
Proof.
  split; [by vm_compute|].
  apply (push_all_then_delete example_long example_mem). by vm_compute.
Defined.

(** ** [ts_string_from] in detail *)

(** X1.  [ts_string_from] on the first [length] bytes of an array returns
    a string of that length whose bytes are those bytes.  Up to [SMALL_LEN]
    bytes it is inline and the memory is untouched; beyond, it names a block
    that was not live, of exactly [length] cells, the log gains the one
    [malloc] of it, and every other block is as before. *)
Theorem from_copies_prefix (bytes : list Z) (length : Z) (m : mem) :
  0 ≤ length < 2 ^ 32 →
  length ≤ Z.of_nat (List.length bytes) →
  ∃ self m',
    ts_string_from bytes length m = Some (self, m')
    ∧ s_length self = length
    ∧ stored_bytes self m' = Some (take (Z.to_nat length) bytes)
    ∧ (length ≤ SMALL_LEN → is_inline self = true ∧ m' = m)
    ∧ (SMALL_LEN < length →
       ∃ p, content self = large p length
            ∧ blocks m !! p = None
            ∧ events m' = events m ++ [Malloc p length]
            ∧ ∀ q, q ≠ p → blocks m' !! q = blocks m !! q).
Proof.
  intros Hrange Hlen.
  destruct (from_repr bytes length m Hrange Hlen)
    as (self & m' & Hf & Hr & Hin).
  exists self, m'. split; [done|].
  assert (Hsl : s_length self = length).
  { rewrite (repr_length _ _ _ Hr), length_take. lia. }
  split; [done|]. split; [by apply repr_stored_bytes|].
  unfold ts_string_from, SMALL_LEN in *.
  destruct (12 <? length) eqn:Hbig.
  - apply Z.ltb_lt in Hbig. split; [lia|]. intros _.
    unfold malloc, memcpy in Hf. simpl in Hf.
    rewrite lookup_insert_eq in Hf. simpl in Hf.
    rewrite decide_True in Hf
      by (rewrite length_fmap, length_replicate; lia).
    injection Hf as <- <-. simpl.
    exists (fresh (dom (blocks m))). split; [done|].
    split; [apply not_elem_of_dom, is_fresh|]. split; [done|].
    intros q Hq. by rewrite insert_insert_eq, lookup_insert_ne.
  - apply Z.ltb_ge in Hbig. split; [|lia]. intros _.
    rewrite decide_True in Hf by lia. injection Hf as <- <-. done.
Qed.

Lemma from_copies_prefix_witness :
  0 ≤ 13 < 2 ^ 32
  ∧ 13 ≤ Z.of_nat (List.length example_bytes)
  ∧ ∃ self m',
      ts_string_from example_bytes 13 empty_mem = Some (self, m')
      ∧ s_length self = 13
      ∧ stored_bytes self m' = Some (take (Z.to_nat 13) example_bytes)
      ∧ (13 ≤ SMALL_LEN → is_inline self = true ∧ m' = empty_mem)
      ∧ (SMALL_LEN < 13 →
         ∃ p, content self = large p 13
              ∧ blocks empty_mem !! p = None
              ∧ events m' = events empty_mem ++ [Malloc p 13]
              ∧ ∀ q, q ≠ p → blocks m' !! q = blocks empty_mem !! q).
Proof.
  split; [by vm_compute|]. split; [by vm_compute|].
  apply (from_copies_prefix example_bytes 13 empty_mem); by vm_compute.
Defined.

(** X2.  [ts_string_from] followed by [ts_string_delete] returns and
    leaves the heap with the blocks it had before: the copy made for a long
    string is released, and a short one never had a block. *)
Theorem from_then_delete (content : list Z) (length : Z) (m : mem) :
  0 ≤ length < 2 ^ 32 →
  length ≤ Z.of_nat (List.length content) →
  ∃ self m' m'',
    ts_string_from content length m = Some (self, m')
    ∧ ts_string_delete self m' = Some (ts_string_new, m'')
    ∧ blocks m'' = blocks m
    ∧ events m''
      = events m
        ++ (if SMALL_LEN <? length
            then [Malloc (fresh (dom (blocks m))) length;
                  Free (fresh (dom (blocks m)))]
            else []).
Proof.
  intros Hrange Hlen.
  destruct (from_repr content length m Hrange Hlen)
    as (self & m' & Hf & Hr & Hin).
  destruct (delete_repr m' self _ Hr) as (m'' & Hd & Hm).
  exists self, m', m''. do 2 (split; [done|]).
  unfold ts_string_from, SMALL_LEN in *.
  destruct (12 <? length) eqn:Hbig.
  - apply Z.ltb_lt in Hbig.
    unfold malloc, memcpy in Hf. simpl in Hf.
    rewrite lookup_insert_eq in Hf. simpl in Hf.
    rewrite decide_True in Hf
      by (rewrite length_fmap, length_replicate; lia).
    injection Hf as <- <-. simpl in Hm. subst m''. simpl.
    rewrite insert_insert_eq, delete_insert_eq, delete_id
      by apply not_elem_of_dom, is_fresh.
    by rewrite <- app_assoc.
  - apply Z.ltb_ge in Hbig.
    rewrite decide_True in Hf by lia. injection Hf as <- <-.
    simpl in Hm. subst m''. by rewrite app_nil_r.
Qed.

Lemma from_then_delete_witness :
  0 ≤ 13 < 2 ^ 32
  ∧ 13 ≤ Z.of_nat (List.length example_bytes)
  ∧ ∃ self m' m'',
      ts_string_from example_bytes 13 example_mem = Some (self, m')
      ∧ ts_string_delete self m' = Some (ts_string_new, m'')
      ∧ blocks m'' = blocks example_mem
      ∧ events m''
        = events example_mem
          ++ (if SMALL_LEN <? 13
              then [Malloc (fresh (dom (blocks example_mem))) 13;
                    Free (fresh (dom (blocks example_mem)))]
              else []).
Proof.
  split; [by vm_compute|]. split; [by vm_compute|].
  apply (from_then_delete example_bytes 13 example_mem); by vm_compute.
Defined.

(** ** Strings side by side *)

Lemma repr_frame (m m' : mem) (other : TSString) (bs : list Z) :
  repr m other bs →
  (∀ q, content_large_data other = Some q → blocks m' !! q = blocks m !! q) →
  repr m' other bs.
Proof.
  intros [rest Hc Hl Hsz|p cap rest Hc Hb Hl Hgt Hsz Hcap] Hsame.
  - by eapply repr_small.
  - eapply repr_large; try done.
    rewrite Hsame; [done|]. unfold content_large_data. by rewrite Hc.
Qed.

Lemma repr_live (m : mem) (other : TSString) (bs : list Z) (q : positive) :
  repr m other bs → content_large_data other = Some q →
  is_Some (blocks m !! q).
Proof.
  intros [rest Hc Hl Hsz|p cap rest Hc Hb Hl Hgt Hsz Hcap];
    unfold content_large_data; rewrite Hc; [done|].
  intros [= <-]. eauto.
Qed.

Lemma push_apart (m : mem) (self other : TSString) (bs bs' : list Z) (c : Z) :
  repr m self bs → repr m other bs' → apart self other →
  Z.of_nat (length bs) + utf8_len c ≤ 2 ^ 31 →
  ∃ self' m', ts_string_push self c m = Some (self', m')
              ∧ repr m' self' (bs ++ utf8_bytes c)
              ∧ repr m' other bs'
              ∧ apart self' other.
Proof.
  intros Hr Hro Hap Hmax.
  destruct (push_effect m self bs c Hr Hmax)
    as (self' & m' & Hp & Hr' & Hcase).
  exists self', m'. do 2 (split; [done|]).
  destruct Hcase as [(Hi & Hi' & ->)
    |[(p & blk & Hi & Hc & Hfr & Hb & _)
    |[(p & cap & blk & Hc & Hc' & _ & Hb & _)
    |(p & q & cap & blk & Hc & Hc' & _ & Hq & Hb & _)]]].
  - split; [done|]. intros p. unfold content_large_data, is_inline in *.
    by destruct (content self').
  - assert (Hne : ∀ r, content_large_data other = Some r → r ≠ p).
    { intros r Hr0 ->. destruct (repr_live _ _ _ _ Hro Hr0) as [x Hx].
      congruence. }
    split.
    + apply (repr_frame m); [done|]. intros r Hr0.
      rewrite Hb, lookup_insert_ne; [done|].
      intros Heq. exact (Hne r Hr0 (eq_sym Heq)).
    + intros r. unfold content_large_data at 1. rewrite Hc.
      intros [= <-] Hr0. by apply (Hne p).
  - assert (Hne : ∀ r, content_large_data other = Some r → r ≠ p).
    { intros r Hr0 ->. apply (Hap p); [|done].
      unfold content_large_data. by rewrite Hc. }
    split.
    + apply (repr_frame m); [done|]. intros r Hr0.
      rewrite Hb, lookup_insert_ne; [done|].
      intros Heq. exact (Hne r Hr0 (eq_sym Heq)).
    + intros r. unfold content_large_data at 1. rewrite Hc'.
      intros [= <-] Hr0. by apply (Hne p).
  - assert (Hne : ∀ r, content_large_data other = Some r → r ≠ p ∧ r ≠ q).
    { intros r Hr0. split; intros ->.
      - apply (Hap p); [|done]. unfold content_large_data. by rewrite Hc.
      - destruct (repr_live _ _ _ _ Hro Hr0) as [x Hx]. congruence. }
    split.
    + apply (repr_frame m); [done|]. intros r Hr0.
      destruct (Hne r Hr0) as [Hrp Hrq].
      by rewrite Hb, lookup_insert_ne, lookup_delete_ne.
    + intros r. unfold content_large_data at 1. rewrite Hc'.
      intros [= <-] Hr0. by destruct (Hne q Hr0).
Qed.

Lemma push_all_apart (cs : list Z) (m : mem) (self other : TSString)
    (bs bs' : list Z) :
  repr m self bs → repr m other bs' → apart self other →
  Z.of_nat (length bs) + total_len cs ≤ 2 ^ 31 →
  ∃ self' m', push_all cs (self, m) = Some (self', m')
              ∧ repr m' self' (bs ++ utf8_string cs)
              ∧ repr m' other bs'
              ∧ apart self' other.
Proof.
  revert m self bs.
  induction cs as [|c cs IH]; intros m self bs Hr Hro Hap Hmax; simpl in *.
  { rewrite app_nil_r. eexists _, _. done. }
  pose proof (total_len_nonneg cs) as Hnn.
  destruct (push_apart m self other bs bs' c Hr Hro Hap)
    as (s1 & m1 & Hp & Hr1 & Hro1 & Hap1); [lia|].
  rewrite Hp. simpl.
  destruct (IH m1 s1 _ Hr1 Hro1 Hap1) as (s2 & m2 & Hq & Hr2 & Hro2 & Hap2).
  { rewrite length_app, Nat2Z.inj_add, utf8_bytes_length. lia. }
  rewrite <- app_assoc in Hr2. eexists _, _. done.
Qed.

(** X4.  A push on one string leaves every other well-formed string that
    does not share its block as it was, with the same bytes, and the two
    still do not share a block afterwards: a block that [malloc] or
    [realloc] hands out is never one that is live. *)
Theorem push_keeps_other (m : mem) (self other : TSString)
    (bs bs' : list Z) (c : Z) :
  repr m self bs → repr m other bs' → apart self other →
  Z.of_nat (length bs) + utf8_len c ≤ 2 ^ 31 →
  ∃ self' m', ts_string_push self c m = Some (self', m')
              ∧ repr m' other bs'
              ∧ stored_bytes other m' = Some bs'
              ∧ stored_bytes self' m' = Some (bs ++ utf8_bytes c)
              ∧ apart self' other.
Proof.
  intros Hr Hro Hap Hmax.
  destruct (push_apart m self other bs bs' c Hr Hro Hap Hmax)
    as (self' & m' & Hp & Hr' & Hro' & Hap').
  exists self', m'. split; [done|]. split; [done|].
  split; [by apply repr_stored_bytes|].
  split; [by apply repr_stored_bytes|done].
Qed.

Lemma example_apart : apart example_large example_large'.
Proof. intros p [= <-] [=]. Qed.

Lemma push_keeps_other_witness :
  repr example_mem example_large example_bytes
  ∧ repr example_mem example_large' example_bytes
  ∧ apart example_large example_large'
  ∧ Z.of_nat (length example_bytes) + utf8_len 0x1F600 ≤ 2 ^ 31
  ∧ ∃ self' m',
      ts_string_push example_large 0x1F600 example_mem = Some (self', m')
      ∧ repr m' example_large' example_bytes
      ∧ stored_bytes example_large' m' = Some example_bytes
      ∧ stored_bytes self' m' = Some (example_bytes ++ utf8_bytes 0x1F600)
      ∧ apart self' example_large'.
Proof.
  split; [apply example_large_repr|]. split; [apply example_large'_repr|].
  split; [apply example_apart|]. split; [by vm_compute|].
  apply (push_keeps_other example_mem example_large example_large'
           example_bytes example_bytes 0x1F600);
    [apply example_large_repr|apply example_large'_repr
    |apply example_apart|by vm_compute].
Defined.

(** ** The encoding is one to one *)

Lemma utf8_bytes_cases (c : Z) :
  0 ≤ c ≤ 0x1fffff →
  (c ≤ 0x7f ∧ utf8_bytes c = [c])
  ∨ (0x7f < c ≤ 0x7ff ∧ utf8_bytes c = [192 + c / 64; 128 + c mod 64])
  ∨ (0x7ff < c ≤ 0xffff
     ∧ utf8_bytes c = [224 + c / 4096; 128 + c / 64 mod 64; 128 + c mod 64])
  ∨ (0xffff < c
     ∧ utf8_bytes c = [240 + c / 262144; 128 + c / 4096 mod 64;
                      128 + c / 64 mod 64; 128 + c mod 64]).
Proof.
  intros Hc.
  destruct (decide (c ≤ 0x7f)); [left; split; [done|apply utf8_bytes_1; lia]|].
  destruct (decide (c ≤ 0x7ff));
    [right; left; split; [lia|apply utf8_bytes_2; lia]|].
  destruct (decide (c ≤ 0xffff));
    [right; right; left; split; [lia|apply utf8_bytes_3; lia]|].
  right; right; right. split; [lia|apply utf8_bytes_4; lia].
Qed.

(** No encoding is the start of another: the lead byte tells the length,
    and the bytes tell the codepoint. *)
Lemma utf8_bytes_prefix_free (c c' : Z) (r r' : list Z) :
  0 ≤ c ≤ 0x1fffff → 0 ≤ c' ≤ 0x1fffff →
  utf8_bytes c ++ r = utf8_bytes c' ++ r' → c = c' ∧ r = r'.
Proof.
  intros Hc Hc' Heq.
  destruct (utf8_bytes_cases c Hc) as [[H1 E]|[[H1 E]|[[H1 E]|[H1 E]]]];
    destruct (utf8_bytes_cases c' Hc') as [[H2 E']|[[H2 E']|[[H2 E']|[H2 E']]]];
    rewrite E, E' in Heq; simpl in Heq; simplify_eq;
    first [ done
          | exfalso; Z.div_mod_to_equations; lia
          | split; [Z.div_mod_to_equations; lia|done] ].
Qed.

Lemma utf8_string_inj (cs cs' : list Z) :
  Forall (λ c, 0 ≤ c ≤ 0x1fffff) cs →
  Forall (λ c, 0 ≤ c ≤ 0x1fffff) cs' →
  utf8_string cs = utf8_string cs' → cs = cs'.
Proof.
  intros Hcs. revert cs'.
  induction Hcs as [|c cs Hc Hcs IH]; intros cs' Hcs' Heq.
  - destruct Hcs' as [|c' cs' Hc' _]; [done|]. simpl in Heq.
    destruct (utf8_bytes_cases c' Hc') as [[_ E]|[[_ E]|[[_ E]|[_ E]]]];
      rewrite E in Heq; done.
  - destruct Hcs' as [|c' cs' Hc' Hcs'].
    + simpl in Heq.
      destruct (utf8_bytes_cases c Hc) as [[_ E]|[[_ E]|[[_ E]|[_ E]]]];
        rewrite E in Heq; done.
    + simpl in Heq.
      destruct (utf8_bytes_prefix_free c c' _ _ Hc Hc' Heq) as [-> Hrest].
      f_equal. by apply IH.
Qed.

(** X5.  Two runs of codepoints up to U+10FFFF (surrogates or not) store
    the same bytes only if they are the same run: the encoding that
    [ts_string_push] writes is one to one, also across the boundaries
    between codepoints. *)
Theorem pushed_bytes_inj (cs cs' : list Z) (m m' : mem) :
  Forall (λ c, 0 ≤ c ≤ 0x10FFFF) cs →
  Forall (λ c, 0 ≤ c ≤ 0x10FFFF) cs' →
  total_len cs ≤ 2 ^ 31 → total_len cs' ≤ 2 ^ 31 →
  ∃ s1 m1 s2 m2 bs bs',
    push_all cs (ts_string_new, m) = Some (s1, m1)
    ∧ push_all cs' (ts_string_new, m') = Some (s2, m2)
    ∧ stored_bytes s1 m1 = Some bs
    ∧ stored_bytes s2 m2 = Some bs'
    ∧ (bs = bs' ↔ cs = cs').
Proof.
  intros Hcs Hcs' Hmax Hmax'.
  destruct (push_all_repr cs m ts_string_new [] (new_repr m))
    as (s1 & m1 & Hp1 & Hr1); [simpl; lia|].
  destruct (push_all_repr cs' m' ts_string_new [] (new_repr m'))
    as (s2 & m2 & Hp2 & Hr2); [simpl; lia|].
  simpl in Hr1, Hr2.
  exists s1, m1, s2, m2, (utf8_string cs), (utf8_string cs').
  do 2 (split; [done|]).
  split; [by apply repr_stored_bytes|]. split; [by apply repr_stored_bytes|].
  split; [|by intros ->].
  apply utf8_string_inj; (eapply Forall_impl; [eassumption|]);
    simpl; intros; lia.
Qed.

Lemma pushed_bytes_inj_witness :
  Forall (λ c, 0 ≤ c ≤ 0x10FFFF) example_codepoints
  ∧ Forall (λ c, 0 ≤ c ≤ 0x10FFFF) example_long
  ∧ total_len example_codepoints ≤ 2 ^ 31
  ∧ total_len example_long ≤ 2 ^ 31
  ∧ ∃ s1 m1 s2 m2 bs bs',
      push_all example_codepoints (ts_string_new, empty_mem) = Some (s1, m1)
      ∧ push_all example_long (ts_string_new, empty_mem) = Some (s2, m2)
      ∧ stored_bytes s1 m1 = Some bs
      ∧ stored_bytes s2 m2 = Some bs'
      ∧ (bs = bs' ↔ example_codepoints = example_long).
Proof.
  assert (H1 : Forall (λ c, 0 ≤ c ≤ 0x10FFFF) example_codepoints)
    by (repeat constructor; by vm_compute).
  assert (H2 : Forall (λ c, 0 ≤ c ≤ 0x10FFFF) example_long)
    by (repeat constructor; by vm_compute).
  assert (H3 : total_len example_codepoints ≤ 2 ^ 31) by (by vm_compute).
  assert (H4 : total_len example_long ≤ 2 ^ 31) by (by vm_compute).
  do 4 (split; [assumption|]).
  exact (pushed_bytes_inj example_codepoints example_long empty_mem empty_mem
           H1 H2 H3 H4).
Defined.

(** X6.  Two strings built one after the other by pushes of codepoints up
    to U+10FFFF, in one memory, compare equal with [ts_string_eq] exactly
    when the same codepoints were pushed in the same order; building the
    second leaves the first intact. *)
Theorem built_strings_eq (cs cs' : list Z) (m : mem) :
  Forall (λ c, 0 ≤ c ≤ 0x10FFFF) cs →
  Forall (λ c, 0 ≤ c ≤ 0x10FFFF) cs' →
  total_len cs ≤ 2 ^ 31 → total_len cs' ≤ 2 ^ 31 →
  ∃ s1 m1 s2 m2,
    push_all cs (ts_string_new, m) = Some (s1, m1)
    ∧ push_all cs' (ts_string_new, m1) = Some (s2, m2)
    ∧ stored_bytes s1 m2 = Some (utf8_string cs)
    ∧ ts_string_eq s1 s2 m2 = Some (bool_decide (cs = cs'))
    ∧ ts_string_eq s2 s1 m2 = Some (bool_decide (cs = cs')).
Proof.
  intros Hcs Hcs' Hmax Hmax'.
  destruct (push_all_repr cs m ts_string_new [] (new_repr m))
    as (s1 & m1 & Hp1 & Hr1); [simpl; lia|].
  simpl in Hr1.
  destruct (push_all_apart cs' m1 ts_string_new s1 [] _ (new_repr m1) Hr1)
    as (s2 & m2 & Hp2 & Hr2 & Hr1' & _); [by intros p [=]|simpl; lia|].
  simpl in Hr2. exists s1, m1, s2, m2. do 2 (split; [done|]).
  split; [by apply repr_stored_bytes|].
  assert (Hiff : utf8_string cs = utf8_string cs' ↔ cs = cs').
  { split; [|by intros ->].
    apply utf8_string_inj; (eapply Forall_impl; [eassumption|]);
      simpl; intros; lia. }
  rewrite (eq_repr m2 s1 s2 _ _ Hr1' Hr2), (eq_repr m2 s2 s1 _ _ Hr2 Hr1').
  split; f_equal; apply bool_decide_ext; [done|].
  rewrite <- Hiff. split; by intros ->.
Qed.

Lemma built_strings_eq_witness :
  Forall (λ c, 0 ≤ c ≤ 0x10FFFF) example_long
  ∧ Forall (λ c, 0 ≤ c ≤ 0x10FFFF) example_long
  ∧ total_len example_long ≤ 2 ^ 31
  ∧ total_len example_long ≤ 2 ^ 31
  ∧ ∃ s1 m1 s2 m2,
      push_all example_long (ts_string_new, empty_mem) = Some (s1, m1)
      ∧ push_all example_long (ts_string_new, m1) = Some (s2, m2)
      ∧ stored_bytes s1 m2 = Some (utf8_string example_long)
      ∧ ts_string_eq s1 s2 m2
        = Some (bool_decide (example_long = example_long))
      ∧ ts_string_eq s2 s1 m2
        = Some (bool_decide (example_long = example_long)).
Proof.
  assert (H2 : Forall (λ c, 0 ≤ c ≤ 0x10FFFF) example_long)
    by (repeat constructor; by vm_compute).
  assert (H4 : total_len example_long ≤ 2 ^ 31) by (by vm_compute).
  do 4 (split; [assumption|]).
  exact (built_strings_eq example_long example_long empty_mem H2 H2 H4 H4).
Defined.

(** ** Reading at the boundaries of codepoints *)

Lemma push_all_split (cs1 cs2 : list Z) (c : Z) (m : mem) :
  total_len (cs1 ++ c :: cs2) ≤ 2 ^ 31 →
  ∃ self m',
    push_all (cs1 ++ c :: cs2) (ts_string_new, m) = Some (self, m')
    ∧ repr m' self (utf8_string cs1 ++ utf8_bytes c ++ utf8_string cs2)
    ∧ Z.of_nat (length (utf8_string cs1)) = total_len cs1.
Proof.
  intros Hmax.
  destruct (push_all_repr (cs1 ++ c :: cs2) m ts_string_new [] (new_repr m))
    as (self & m' & Hp & Hr); [simpl; lia|].
  simpl in Hr. rewrite utf8_string_app in Hr. simpl in Hr.
  exists self, m'. split; [done|]. split; [done|apply utf8_string_length].
Qed.

(** X7.  Where plain [char] is unsigned: in a string built by pushes,
    [ts_string_char] at the byte offset where a codepoint up to U+10FFFF
    starts returns that codepoint and moves the index to the start of the
    next one, whatever was pushed before and after it. *)
Theorem char_at_codepoint_unsigned (cs1 cs2 : list Z) (c : Z) (m : mem) :
  total_len (cs1 ++ c :: cs2) ≤ 2 ^ 31 →
  0 ≤ c ≤ 0x10FFFF →
  ∃ self m',
    push_all (cs1 ++ c :: cs2) (ts_string_new, m) = Some (self, m')
    ∧ ts_string_char UnsignedChar self (total_len cs1) m'
      = Some (c, total_len cs1 + utf8_len c).
Proof.
  intros Hmax Hc.
  destruct (push_all_split cs1 cs2 c m Hmax) as (self & m' & Hp & Hr & Hlen).
  exists self, m'. split; [done|]. rewrite <- Hlen.
  destruct (decide (c ≤ 0x7ff)).
  - apply (char_at_short UnsignedChar m' self _ _ c Hr). lia.
  - apply (char_at_long_unsigned m' self _ _ c Hr). lia.
Qed.

Lemma char_at_codepoint_unsigned_witness :
  total_len ([0x41; 0xE9; 0x4E2D] ++ 0x1F600 :: [0x41]) ≤ 2 ^ 31
  ∧ 0 ≤ 0x1F600 ≤ 0x10FFFF
  ∧ ∃ self m',
      push_all ([0x41; 0xE9; 0x4E2D] ++ 0x1F600 :: [0x41])
        (ts_string_new, empty_mem) = Some (self, m')
      ∧ ts_string_char UnsignedChar self (total_len [0x41; 0xE9; 0x4E2D]) m'
        = Some (0x1F600, total_len [0x41; 0xE9; 0x4E2D] + utf8_len 0x1F600).
Proof.
  split; [by vm_compute|]. split; [by vm_compute|].
  apply (char_at_codepoint_unsigned [0x41; 0xE9; 0x4E2D] [0x41] 0x1F600
           empty_mem); by vm_compute.
Defined.

(** X8.  Whatever the signedness of [char]: a codepoint up to U+07FF is
    read back at its byte offset, with the index moved past it, also when
    longer sequences surround it. *)
Theorem char_at_codepoint_short (abi : char_abi) (cs1 cs2 : list Z) (c : Z)
    (m : mem) :
  total_len (cs1 ++ c :: cs2) ≤ 2 ^ 31 →
  0 ≤ c ≤ 0x7FF →
  ∃ self m',
    push_all (cs1 ++ c :: cs2) (ts_string_new, m) = Some (self, m')
    ∧ ts_string_char abi self (total_len cs1) m'
      = Some (c, total_len cs1 + utf8_len c).
Proof.
  intros Hmax Hc.
  destruct (push_all_split cs1 cs2 c m Hmax) as (self & m' & Hp & Hr & Hlen).
  exists self, m'. split; [done|]. rewrite <- Hlen.
  by apply (char_at_short abi m' self _ _ c Hr).
Qed.

Lemma char_at_codepoint_short_witness :
  total_len ([0x4E2D; 0x1F600] ++ 0xE9 :: [0x4E2D]) ≤ 2 ^ 31
  ∧ 0 ≤ 0xE9 ≤ 0x7FF
  ∧ ∃ self m',
      push_all ([0x4E2D; 0x1F600] ++ 0xE9 :: [0x4E2D])
        (ts_string_new, empty_mem) = Some (self, m')
      ∧ ts_string_char SignedChar self (total_len [0x4E2D; 0x1F600]) m'
        = Some (0xE9, total_len [0x4E2D; 0x1F600] + utf8_len 0xE9).
Proof.
  split; [by vm_compute|]. split; [by vm_compute|].
  apply (char_at_codepoint_short SignedChar [0x4E2D; 0x1F600] [0x4E2D] 0xE9
           empty_mem); by vm_compute.
Defined.

(** X9.  Where plain [char] is signed: at the byte offset of a codepoint
    from U+0800 to U+10FFFF, [ts_string_char] takes the two-byte branch.  It
    returns [c / 64] for a three-byte sequence and [1024 + c / 4096] for a
    four-byte one, and moves the index by two, into the middle of the
    sequence. *)
Theorem char_at_codepoint_signed_long (cs1 cs2 : list Z) (c : Z) (m : mem) :
  total_len (cs1 ++ c :: cs2) ≤ 2 ^ 31 →
  0x7FF < c ≤ 0x10FFFF →
  ∃ self m',
    push_all (cs1 ++ c :: cs2) (ts_string_new, m) = Some (self, m')
    ∧ ts_string_char SignedChar self (total_len cs1) m'
      = Some (if c <=? 0xffff then c / 64 else 1024 + c / 4096,
              total_len cs1 + 2).
Proof.
  intros Hmax Hc.
  destruct (push_all_split cs1 cs2 c m Hmax) as (self & m' & Hp & Hr & Hlen).
  exists self, m'. split; [done|]. rewrite <- Hlen.
  apply (char_at_long_signed m' self _ _ c Hr). lia.
Qed.

Lemma char_at_codepoint_signed_long_witness :
  total_len ([0x41] ++ 0x1F600 :: [0x41]) ≤ 2 ^ 31
  ∧ 0x7FF < 0x1F600 ≤ 0x10FFFF
  ∧ ∃ self m',
      push_all ([0x41] ++ 0x1F600 :: [0x41]) (ts_string_new, empty_mem)
      = Some (self, m')
      ∧ ts_string_char SignedChar self (total_len [0x41]) m'
        = Some (if 0x1F600 <=? 0xffff then 0x1F600 / 64
                else 1024 + 0x1F600 / 4096,
                total_len [0x41] + 2).
Proof.
  split; [by vm_compute|]. split; [by vm_compute|].
  apply (char_at_codepoint_signed_long [0x41] [0x41] 0x1F600 empty_mem);
    by vm_compute.
Defined.

(** X10.  Whatever the signedness of [char] and however the string was
    made: at an offset that holds a byte below 0x80, [ts_string_char]
    returns that byte and moves the index by one. *)
Theorem char_at_ascii (abi : char_abi) (m : mem) (self : TSString)
    (bs : list Z) (i : nat) (b : Z) :
  repr m self bs →
  bs !! i = Some b →
  0 ≤ b < 128 →
  ts_string_char abi self (Z.of_nat i) m = Some (b, Z.of_nat i + 1).
Proof.
  intros Hr Hb Hrange.
  assert (Hsplit : bs = take i bs ++ utf8_bytes b ++ drop (S i) bs).
  { rewrite utf8_bytes_1 by lia. by rewrite <- (take_drop_middle bs i b) at 1. }
  rewrite Hsplit in Hr.
  pose proof (char_at_short abi m self _ _ b Hr ltac:(lia)) as Hread.
  rewrite length_take_le in Hread by (apply lookup_lt_Some in Hb; lia).
  rewrite Hread. unfold utf8_len.
  by assert ((b <=? 0x7f) = true) as -> by (apply Z.leb_le; lia).
Qed.

Lemma char_at_ascii_witness :
  repr example_mem example_large' example_bytes
  ∧ example_bytes !! 12%nat = Some 0x21
  ∧ 0 ≤ 0x21 < 128
  ∧ ts_string_char SignedChar example_large' (Z.of_nat 12) example_mem
    = Some (0x21, Z.of_nat 12 + 1).
Proof.
  split; [apply example_large'_repr|]. split; [reflexivity|].
  split; [by vm_compute|].
  apply (char_at_ascii SignedChar example_mem example_large' example_bytes
           12 0x21);
    [apply example_large'_repr|reflexivity|by vm_compute].
Defined.

(** ** Reading arbitrary bytes *)

(** X11.  On any bytes whatever, well-formed UTF-8 or not, and for either
    signedness of [char]: while at least four bytes remain from the offset,
    [ts_string_char] returns a value from 0 to 0x1FFFFF, so never the end
    sentinel, and moves the index forward by one to four bytes. *)
Theorem char_in_buffer (abi : char_abi) (m : mem) (self : TSString)
    (bs : list Z) (i : Z) :
  repr m self bs →
  Forall (λ b, 0 ≤ b < 256) bs →
  0 ≤ i →
  i + 4 ≤ s_length self →
  ∃ v i', ts_string_char abi self i m = Some (v, i')
          ∧ 0 ≤ v < 2 ^ 21
          ∧ i < i' ≤ i + 4.
Proof.
  intros Hr Hbytes Hi Hrem.
  pose proof (repr_length _ _ _ Hr) as Hlen.
  assert (Hsplit : bs = take (Z.to_nat i) bs ++ drop (Z.to_nat i) bs)
    by (by rewrite take_drop).
  assert (Hpre : Z.of_nat (length (take (Z.to_nat i) bs)) = i)
    by (rewrite length_take; lia).
  assert (Hdrop : (4 ≤ length (drop (Z.to_nat i) bs))%nat)
    by (rewrite length_drop; lia).
  destruct (drop (Z.to_nat i) bs) as [|b0 [|b1 [|b2 [|b3 post]]]];
    simpl in Hdrop; try lia.
  clear Hdrop. set (pre := take (Z.to_nat i) bs) in *.
  rewrite Hsplit in Hbytes.
  apply Forall_app in Hbytes as [_ Hbytes].
  inversion_clear Hbytes as [|? ? Hb0 _].
  change (b0 :: b1 :: b2 :: b3 :: post)
    with ([b0; b1; b2; b3] ++ post) in Hsplit.
  rewrite Hsplit in Hr.
  destruct (repr_deref _ _ _ Hr) as (d & rest & Hd & Hderef & Hmax).
  rewrite <- Hsplit in Hmax.
  unfold ts_string_char. rewrite Hd. simpl mbind.
  assert ((s_length self <=? i) = false) as -> by (apply Z.leb_gt; lia).
  assert (H0 : load abi self m d i = Some (char_value abi b0)).
  { rewrite <- Hpre, <- (Z.add_0_r (Z.of_nat (length pre))).
    by apply (load_at abi _ _ _ _ _ _ _ 0 _ Hderef). }
  assert (H1 : load abi self m d (i + 1) = Some (char_value abi b1)).
  { rewrite <- Hpre. by apply (load_at abi _ _ _ _ _ _ _ 1 _ Hderef). }
  assert (H2 : load abi self m d (i + 2) = Some (char_value abi b2)).
  { rewrite <- Hpre. by apply (load_at abi _ _ _ _ _ _ _ 2 _ Hderef). }
  assert (H3 : load abi self m d (i + 3) = Some (char_value abi b3)).
  { rewrite <- Hpre. by apply (load_at abi _ _ _ _ _ _ _ 3 _ Hderef). }
  rewrite (u32_small (i + 1)) by lia.
  rewrite !u32_small by lia.
  rewrite <- !Z.add_assoc.
  change (1 + 1) with 2. change (1 + 2) with 3. change (1 + 3) with 4.
  rewrite H0, H1, H2, H3.
  cbn [mbind option_bind]. rewrite high_bit_test by done.
  destruct (b0 <? 128) eqn:Hhigh; cbn [negb].
  - apply Z.ltb_lt in Hhigh. eexists _, _. split; [reflexivity|].
    assert (char_value abi b0 = b0) as ->
      by (destruct abi; simpl; [|done]; by cmp_by_lia).
    lia.
  - destruct (char_value abi b0 <? 224); [|destruct (char_value abi b0 <? 240)];
      (eexists _, _; split; [reflexivity|]).
    + rewrite decode_2. split; [Z.div_mod_to_equations; lia|lia].
    + unfold u16. split; [|lia].
      pose proof (Z.mod_pos_bound
                    (Z.lor (Z.lor (Z.shiftl (char_value abi b0) 12)
                                  (Z.shiftl (Z.land (char_value abi b1) 63) 6))
                           (Z.land (char_value abi b2) 63)) (2 ^ 16)). lia.
    + rewrite decode_4. split; [Z.div_mod_to_equations; lia|lia].
Qed.

Lemma char_in_buffer_witness :
  repr example_mem example_large example_bytes
  ∧ Forall (λ b, 0 ≤ b < 256) example_bytes
  ∧ 0 ≤ 9
  ∧ 9 + 4 ≤ s_length example_large
  ∧ ∃ v i', ts_string_char SignedChar example_large 9 example_mem
            = Some (v, i')
            ∧ 0 ≤ v < 2 ^ 21
            ∧ 9 < i' ≤ 9 + 4.
Proof.
  assert (Hb : Forall (λ b, 0 ≤ b < 256) example_bytes)
    by (repeat constructor; by vm_compute).
  split; [apply example_large_repr|]. split; [exact Hb|].
  split; [by vm_compute|]. split; [by vm_compute|].
  apply (char_in_buffer SignedChar example_mem example_large example_bytes 9);
    [apply example_large_repr|exact Hb|by vm_compute|by vm_compute].
Defined.

(** X12.  [ts_string_char] does not check that a sequence ends within
    [length].  On a heap string whose block is exactly full, as
    [ts_string_from] makes it, with a last byte from 0x80 on, the read at
    the last offset asks for the byte after the block: it has no defined
    result, for either signedness of [char]. *)
Theorem char_truncated_sequence (abi : char_abi) (m : mem) (self : TSString)
    (pre : list Z) (b : Z) (p : positive) :
  repr m self (pre ++ [b]) →
  content self = large p (s_length self) →
  128 ≤ b < 256 →
  ts_string_char abi self (Z.of_nat (length pre)) m = None.
Proof.
  intros Hr Hc Hb.
  pose proof (repr_length _ _ _ Hr) as Hlen.
  rewrite length_app, Nat2Z.inj_add in Hlen. simpl in Hlen.
  destruct Hr as [rest Hc' Hl Hsz|p' cap rest Hc' Hblk Hl Hgt Hsz Hcap];
    [congruence|].
  rewrite Hc in Hc'. injection Hc' as <- <-.
  assert (rest = []) as -> by (apply nil_length_inv; lia).
  rewrite app_nil_r in Hblk.
  unfold ts_string_char, ts_string_data, content_large_data.
  unfold SMALL_LEN in Hgt.
  assert ((SMALL_LEN <? s_length self) = true) as ->
    by (apply Z.ltb_lt; unfold SMALL_LEN; lia).
  rewrite Hc. simpl.
  assert ((s_length self <=? Z.of_nat (length pre)) = false) as ->
    by (apply Z.leb_gt; lia).
  assert (Hload0 : load abi self m (HeapBlock p) (Z.of_nat (length pre))
                   = Some (char_value abi b)).
  { unfold load. simpl. rewrite Hblk. simpl. rewrite decide_True by lia.
    rewrite Nat2Z.id, list_lookup_fmap, list_lookup_middle by done.
    reflexivity. }
  assert (Hload1 : load abi self m (HeapBlock p)
                     (u32 (Z.of_nat (length pre) + 1)) = None).
  { unfold load. simpl. rewrite Hblk. simpl.
    rewrite u32_small by lia. rewrite decide_True by lia.
    rewrite lookup_ge_None_2; [done|].
    rewrite length_fmap, length_app. simpl. lia. }
  rewrite Hload0. cbn [mbind option_bind].
  rewrite high_bit_test by lia.
  assert ((b <? 128) = false) as -> by (apply Z.ltb_ge; lia).
  cbn [negb]. rewrite Hload1.
  by repeat case_match.
Qed.

Lemma example_cut_repr :
  repr example_cut_mem example_cut (example_cut_bytes ++ [0xC3]).
Proof.
  by eapply (repr_large example_cut_mem example_cut
               (example_cut_bytes ++ [0xC3]) 1 13 []).
Qed.

Lemma char_truncated_sequence_witness :
  repr example_cut_mem example_cut (example_cut_bytes ++ [0xC3])
  ∧ content example_cut = large 1 (s_length example_cut)
  ∧ 128 ≤ 0xC3 < 256
  ∧ ts_string_char UnsignedChar example_cut
      (Z.of_nat (length example_cut_bytes)) example_cut_mem = None.
Proof.
  split; [apply example_cut_repr|]. split; [reflexivity|].
  split; [by vm_compute|].
  apply (char_truncated_sequence UnsignedChar example_cut_mem example_cut
           example_cut_bytes 0xC3 1);
    [apply example_cut_repr|reflexivity|by vm_compute].
Defined.

(** ** Growth of the block *)

Lemma repr_capacity (m : mem) (self : TSString) (bs : list Z)
    (p : positive) (cap : Z) :
  repr m self bs → content self = large p cap → s_length self ≤ cap.
Proof.
  intros [rest Hc Hl Hsz|p' cap' rest Hc Hb Hl Hgt Hsz Hcap] Hcont;
    [congruence|].
  rewrite Hcont in Hc. injection Hc as <- <-. lia.
Qed.

Lemma push_grown (m0 m : mem) (self : TSString) (bs : list Z) (c : Z) :
  repr m self bs →
  grown m0 m self →
  Z.of_nat (length bs) + utf8_len c ≤ 2 ^ 31 →
  ∃ self' m', ts_string_push self c m = Some (self', m')
              ∧ repr m' self' (bs ++ utf8_bytes c)
              ∧ grown m0 m' self'.
Proof.
  intros Hr Hg Hmax.
  pose proof (utf8_len_range c) as Hu.
  pose proof (repr_length _ _ _ Hr) as Hl.
  destruct (push_effect m self bs c Hr Hmax)
    as (self' & m' & Hp & Hr' & Hcase).
  pose proof (repr_length _ _ _ Hr') as Hl'.
  rewrite length_app, Nat2Z.inj_add, utf8_bytes_length in Hl'.
  exists self', m'. do 2 (split; [done|]).
  unfold grown, is_inline, SMALL_LEN in *.
  destruct Hcase as [(Hi & Hi' & ->)
    |[(p & blk & Hi & Hc & Hfr & Hb & He)
    |[(p & cap & blk & Hc & Hc' & Hfit & Hb & He)
    |(p & q & cap & blk & Hc & Hc' & Hlt & Hq & Hb & He)]]].
  - destruct (content self), (content self'); done.
  - rewrite Hc. destruct (content self) as [cells|] eqn:Hcs; [|done].
    exists 1. split; [lia|]. split; [done|].
    assert (s_length self ≤ 12).
    { pose proof (repr_inline _ _ _ Hr) as Hin. unfold is_inline in Hin.
      rewrite Hcs in Hin. symmetry in Hin.
      by apply bool_decide_eq_true in Hin. }
    pose proof (push_inline m self bs c Hr) as Hno.
    split.
    + destruct (decide (Z.of_nat (length bs) + utf8_len c ≤ 12)) as [Hle|]; [|lia].
      destruct (Hno Hle) as (s' & Hp0 & _ & Hin0).
      rewrite Hp in Hp0. injection Hp0 as <- _.
      unfold is_inline in Hin0. by rewrite Hc in Hin0.
    + rewrite He, Hg, length_app. simpl. lia.
  - rewrite Hc in Hg. rewrite Hc'. destruct Hg as (k & Hk & Hcap & Hhalf & Hev).
    exists k. split; [done|]. split; [done|]. split; [lia|]. by rewrite He.
  - rewrite Hc in Hg. rewrite Hc'. destruct Hg as (k & Hk & Hcap & Hhalf & Hev).
    exists (k + 1). split; [lia|]. split; [|split].
    + rewrite Z.pow_add_r, Hcap by lia. lia.
    + lia.
    + rewrite He, length_app. simpl. lia.
Qed.

Lemma push_all_grown (cs : list Z) (m0 m : mem) (self : TSString)
    (bs : list Z) :
  repr m self bs →
  grown m0 m self →
  Z.of_nat (length bs) + total_len cs ≤ 2 ^ 31 →
  ∃ self' m', push_all cs (self, m) = Some (self', m')
              ∧ repr m' self' (bs ++ utf8_string cs)
              ∧ grown m0 m' self'.
Proof.
  revert m self bs.
  induction cs as [|c cs IH]; intros m self bs Hr Hg Hmax; simpl in *.
  { rewrite app_nil_r. eauto. }
  pose proof (total_len_nonneg cs) as Hnn.
  destruct (push_grown m0 m self bs c Hr Hg) as (s1 & m1 & Hp & Hr1 & Hg1); [lia|].
  rewrite Hp. simpl.
  destruct (IH m1 s1 _ Hr1 Hg1) as (s2 & m2 & Hq & Hr2 & Hg2).
  { rewrite length_app, Nat2Z.inj_add, utf8_bytes_length. lia. }
  rewrite <- app_assoc in Hr2. eauto.
Qed.

(** X13.  After pushes onto a fresh string that take it past [SMALL_LEN]
    (and no further than 2 GiB), the capacity is [SMALL_LEN * 2^k] for some
    [k >= 1], the length is at most the capacity and more than half of it,
    and the pushes have made exactly [k] calls of the allocator in all:
    the block is never more than twice as large as needed, and the number
    of allocations grows with the logarithm of the length. *)
Theorem push_all_capacity (cs : list Z) (m : mem) :
  SMALL_LEN < total_len cs ≤ 2 ^ 31 →
  ∃ self m' p k,
    push_all cs (ts_string_new, m) = Some (self, m')
    ∧ content self = large p (SMALL_LEN * 2 ^ k)
    ∧ 1 ≤ k
    ∧ s_length self ≤ SMALL_LEN * 2 ^ k < 2 * s_length self
    ∧ length (events m') = (length (events m) + Z.to_nat k)%nat.
Proof.
  intros [Hover Hmax].
  destruct (push_all_grown cs m m ts_string_new [] (new_repr m))
    as (self & m' & Hp & Hr & Hg); [reflexivity|simpl; lia|].
  simpl in Hr.
  pose proof (repr_length _ _ _ Hr) as Hl. rewrite utf8_string_length in Hl.
  pose proof (repr_inline _ _ _ Hr) as Hin.
  unfold grown, is_inline in *.
  destruct (content self) as [cells|p cap] eqn:Hc.
  { symmetry in Hin. apply bool_decide_eq_true in Hin. lia. }
  destruct Hg as (k & Hk & Hcap & Hhalf & Hev).
  pose proof (repr_capacity _ _ _ _ _ Hr Hc) as Hle.
  exists self, m', p, k. subst cap. done.
Qed.

Lemma push_all_capacity_witness :
  SMALL_LEN < total_len example_long ≤ 2 ^ 31
  ∧ ∃ self m' p k,
      push_all example_long (ts_string_new, empty_mem) = Some (self, m')
      ∧ content self = large p (SMALL_LEN * 2 ^ k)
      ∧ 1 ≤ k
      ∧ s_length self ≤ SMALL_LEN * 2 ^ k < 2 * s_length self
      ∧ length (events m') = (length (events empty_mem) + Z.to_nat k)%nat.
Proof.
  split; [by vm_compute|].
  apply (push_all_capacity example_long empty_mem). by vm_compute.
Defined.

(** ** The flag of [SKIP] and the local [lookahead] *)

(** X14.  In every run, whatever the callbacks do: [advance] is called
    once for each [ADVANCE], with the flag [false], and once for each
    [SKIP], with the flag [true], in the order of the macros, and [mark_end]
    once for each [ACCEPT_TOKEN], after the symbol is stored.  The flag that
    [SKIP] sets is cleared at [start], so it never reaches a later
    [ADVANCE]; [state] is what the last [ADVANCE] or [SKIP] named. *)
Theorem run_calls {E : Type} `{LexerCallbacks E}
    (lexer : TSLexer E) (state0 : Z) (ops : list macro) :
  (exec_all ops (START_LEXER lexer state0)).1 = fold_left lexer_step ops lexer
  ∧ skip (exec_all ops (START_LEXER lexer state0)).2 = false
  ∧ state (exec_all ops (START_LEXER lexer state0)).2
    = fold_left state_step ops state0.
Proof.
  assert (Hgen : ∀ ops (st : TSLexer E * frame),
             skip st.2 = false →
             (exec_all ops st).1 = fold_left lexer_step ops st.1
             ∧ skip (exec_all ops st).2 = false
             ∧ state (exec_all ops st).2 = fold_left state_step ops (state st.2)).
  { clear. intros ops. induction ops as [|o ops IH]; intros [lx fr] Hsk; [done|].
    change (exec_all (o :: ops) (lx, fr))
      with (exec_all ops (exec (lx, fr) o)).
    simpl in Hsk. destruct o as [v|v|sym]; simpl.
    - rewrite Hsk. by apply IH.
    - by apply IH.
    - by apply IH. }
  apply (Hgen ops (START_LEXER lexer state0)). reflexivity.
Qed.

Section LocalLookahead.
Context {E : Type} `{LexerCallbacks E}.
Hypothesis mark_end_lookahead :
  ∀ lexer, lookahead (mark_end lexer) = lookahead lexer.

(** X15.  If [mark_end] leaves the field [lookahead] of the lexer alone,
    then at every point of a run the local [lookahead], which the cases of a
    lex function test, is the value of that field: it is read again after
    every call of [advance]. *)
Theorem local_lookahead_current (lexer : TSLexer E) (state0 : Z)
    (ops : list macro) :
  lookahead' (exec_all ops (START_LEXER lexer state0)).2
  = lookahead (exec_all ops (START_LEXER lexer state0)).1.
Proof.
  assert (Hgen : ∀ ops (st : TSLexer E * frame),
             lookahead' st.2 = lookahead st.1 →
             lookahead' (exec_all ops st).2 = lookahead (exec_all ops st).1).
  { intros ops'. induction ops' as [|o ops' IH]; intros [lx fr] Hla; [done|].
    change (exec_all (o :: ops') (lx, fr))
      with (exec_all ops' (exec (lx, fr) o)).
    apply IH. destruct o; simpl; try done.
    by rewrite mark_end_lookahead. }
  apply Hgen. reflexivity.
Qed.
End LocalLookahead.

Lemma local_lookahead_current_witness :
  (∀ lx : TSLexer cursor, lookahead (mark_end lx) = lookahead lx)
  ∧ lookahead'
      (exec_all (example_pre ++ Accept 7 :: example_mid)
         (START_LEXER example_lexer 0)).2
    = lookahead
        (exec_all (example_pre ++ Accept 7 :: example_mid)
           (START_LEXER example_lexer 0)).1.
Proof.
  assert (H1 : ∀ lx : TSLexer cursor, lookahead (mark_end lx) = lookahead lx)
    by reflexivity.
  split; [exact H1|].
  exact (local_lookahead_current H1 example_lexer 0
           (example_pre ++ Accept 7 :: example_mid)).
Defined.

(** ** Release beside other strings, and growth after a copy *)

(** X16.  [ts_string_delete] on one string leaves every other well-formed
    string that does not share its block as it was, with the same bytes. *)
Theorem delete_keeps_other (m : mem) (self other : TSString)
    (bs bs' : list Z) :
  repr m self bs → repr m other bs' → apart self other →
  ∃ m', ts_string_delete self m = Some (ts_string_new, m')
        ∧ repr m' other bs'
        ∧ stored_bytes other m' = Some bs'.
Proof.
  intros Hr Hro Hap.
  destruct (delete_repr m self bs Hr) as (m' & Hd & Hm).
  exists m'. split; [exact Hd|].
  assert (Hro' : repr m' other bs').
  { apply (repr_frame m); [done|]. intros q Hq.
    destruct (content self) as [cells|p cap] eqn:Hc; [by subst m'|].
    subst m'. simpl. rewrite lookup_delete_ne; [done|].
    intros ->. apply (Hap q); [|done].
    unfold content_large_data. by rewrite Hc. }
  split; [done|by apply repr_stored_bytes].
Qed.

Lemma delete_keeps_other_witness :
  repr example_mem example_large example_bytes
  ∧ repr example_mem example_large' example_bytes
  ∧ apart example_large example_large'
  ∧ ∃ m', ts_string_delete example_large example_mem
          = Some (ts_string_new, m')
          ∧ repr m' example_large' example_bytes
          ∧ stored_bytes example_large' m' = Some example_bytes.
Proof.
  split; [apply example_large_repr|]. split; [apply example_large'_repr|].
  split; [apply example_apart|].
  apply (delete_keeps_other example_mem example_large example_large'
           example_bytes example_bytes);
    [apply example_large_repr|apply example_large'_repr|apply example_apart].
Defined.

Lemma from_large (bytes : list Z) (n : Z) (m : mem) :
  SMALL_LEN < n →
  n ≤ Z.of_nat (length bytes) →
  ts_string_from bytes n m
  = Some (MkString (large (fresh (dom (blocks m))) n) n,
          Mem (<[fresh (dom (blocks m)) := Byte <$> take (Z.to_nat n) bytes]>
                 (blocks m))
              (events m ++ [Malloc (fresh (dom (blocks m))) n])).
Proof.
  intros Hbig Hlen. unfold ts_string_from, SMALL_LEN in *.
  assert ((12 <? n) = true) as -> by (apply Z.ltb_lt; lia).
  unfold malloc, memcpy. simpl. rewrite lookup_insert_eq. simpl.
  rewrite decide_True by (rewrite length_fmap, length_replicate; lia).
  rewrite insert_insert_eq, drop_replicate, Nat.sub_diag, <- fmap_take.
  simpl. by rewrite app_nil_r.
Qed.

(** X17.  [ts_string_from] leaves no room after a long copy: the first
    push onto it always moves the block, with one [realloc] for twice the
    length copied, and the string then holds the copied bytes followed by
    the bytes of the codepoint. *)
Theorem push_after_from (bytes : list Z) (n c : Z) (m : mem) :
  SMALL_LEN < n →
  n + utf8_len c ≤ 2 ^ 31 →
  n ≤ Z.of_nat (length bytes) →
  ∃ s0 m0 s1 m1 p q,
    ts_string_from bytes n m = Some (s0, m0)
    ∧ ts_string_push s0 c m0 = Some (s1, m1)
    ∧ content s1 = large q (n * 2)
    ∧ events m1 = events m ++ [Malloc p n; Realloc p q (n * 2)]
    ∧ stored_bytes s1 m1 = Some (take (Z.to_nat n) bytes ++ utf8_bytes c).
Proof.
  intros Hbig Hmax Hlen. pose proof (utf8_len_range c) as Hu.
  unfold SMALL_LEN in Hbig.
  destruct (from_repr bytes n m ltac:(lia) Hlen) as (s0 & m0 & Hf & Hr & _).
  pose proof (from_large bytes n m Hbig Hlen) as Hexact.
  rewrite Hf in Hexact. injection Hexact as Hs0 Hm0.
  assert (Hc0 : content s0 = large (fresh (dom (blocks m))) n)
    by (by rewrite Hs0).
  assert (Hl : Z.of_nat (length (take (Z.to_nat n) bytes)) = n)
    by (rewrite length_take; lia).
  destruct (push_large_detail m0 s0 _ c _ n Hr Hc0 ltac:(lia))
    as (s1 & m1 & blk & Hp & Hr1
        & [(Hle & _)|(Hlt & q & Hc1 & Hq & Hb & He)]); [lia|].
  exists s0, m0, s1, m1, (fresh (dom (blocks m))), q.
  do 3 (split; [done|]). split; [|by apply repr_stored_bytes].
  rewrite He, Hm0. simpl. by rewrite <- app_assoc.
Qed.

Lemma push_after_from_witness :
  SMALL_LEN < 13
  ∧ 13 + utf8_len 0x4E2D ≤ 2 ^ 31
  ∧ 13 ≤ Z.of_nat (length example_bytes)
  ∧ ∃ s0 m0 s1 m1 p q,
      ts_string_from example_bytes 13 empty_mem = Some (s0, m0)
      ∧ ts_string_push s0 0x4E2D m0 = Some (s1, m1)
      ∧ content s1 = large q (13 * 2)
      ∧ events m1 = events empty_mem ++ [Malloc p 13; Realloc p q (13 * 2)]
      ∧ stored_bytes s1 m1
        = Some (take (Z.to_nat 13) example_bytes ++ utf8_bytes 0x4E2D).
Proof.
  split; [by vm_compute|]. split; [by vm_compute|]. split; [by vm_compute|].
  apply (push_after_from example_bytes 13 0x4E2D empty_mem); by vm_compute.
Defined.
